(** * python-gssapi raw extension wrappers: a shallow embedding

    The development models the Cython wrappers of
    [gssapi/raw/ext_dce_aead.pyx], [gssapi/raw/ext_password_add.pyx],
    [gssapi/raw/ext_rfc6680.pyx] and the [set_cred_option] wrapper.  The
    native GSS-API library is an interface ([GssNative]) over an abstract
    world; every wrapper is a computation in a small monad that threads
    the world and the store of Python [Creds] objects, may raise a Python
    exception, and records the native calls, the copies out of native
    buffers and the release calls it makes.  Arguments declared with a
    type and [not None] are taken at that type; [with nogil] has no
    counterpart here, the model being sequential. *)

From stdpp Require Import base option list gmap strings.
From Stdlib Require Import ZArith Lia Ascii.
From Stdlib Require Strings.Byte.

Open Scope Z_scope.

(** ** Data *)

Definition bytes := list Byte.byte.

Definition OM_uint32 := Z.
Definition gss_qop_t := Z.
Definition gss_ctx_id_t := Z.
Definition gss_name_t := Z.
Definition gss_cred_id_t := Z.
Definition gss_OID_desc := bytes.
(** A [gss_OID] is a pointer to a descriptor; [None] is the null pointer. *)
Definition gss_OID := option gss_OID_desc.
Definition gss_OID_set := list gss_OID_desc.

Definition GSS_S_COMPLETE : OM_uint32 := 0.
Definition GSS_C_QOP_DEFAULT : gss_qop_t := 0.
Definition GSS_C_INDEFINITE : OM_uint32 := 4294967295.
Definition GSS_C_NO_CREDENTIAL : gss_cred_id_t := 0.

(** [gss_qop_t] comes from [gssapi.raw.cython_types]; in the GSS-API C
    bindings it is an [OM_uint32], an unsigned 32-bit integer.  The
    conversion of a Python integer to it fails outside that range. *)
Definition OM_uint32_MAX : Z := 4294967295.
Definition to_gss_qop_t (q : Z) : option gss_qop_t :=
  if (0 <=? q) && (q <=? OM_uint32_MAX) then Some q else None.

(** [qop if qop is not None else GSS_C_QOP_DEFAULT], converted to
    [gss_qop_t]; [None] when the conversion overflows. *)
Definition qop_req_of (qop : option Z) : option gss_qop_t :=
  match qop with
  | Some q => to_gss_qop_t q
  | None => Some GSS_C_QOP_DEFAULT
  end.

Inductive gss_cred_usage_t := GSS_C_BOTH | GSS_C_INITIATE | GSS_C_ACCEPT.

(** [gss_buffer_desc(length, value)]: [buf_value] is the [value] pointer,
    [None] for [NULL], [Some bs] for a pointer to memory holding [bs]. *)
Record gss_buffer_desc := mk_gss_buffer_desc {
  buf_length : Z;
  buf_value : option bytes
}.

(** A [gss_buffer_t] is a pointer to a descriptor. *)
Definition gss_buffer_t := option gss_buffer_desc.
Definition GSS_C_NO_BUFFER : gss_buffer_t := None.
Definition GSS_C_EMPTY_BUFFER : gss_buffer_desc := mk_gss_buffer_desc 0 None.

(** A [gss_buffer_set_t] is a pointer to a (count, elements) descriptor;
    the elements array is modelled by the list of its [count] entries. *)
Definition gss_buffer_set_t := option (list gss_buffer_desc).
Definition GSS_C_NO_BUFFER_SET : gss_buffer_set_t := None.

(** Python's [len] on a bytes object or a list. *)
Definition len {A} (l : list A) : Z := Z.of_nat (length l).

(** [gss_buffer_desc(len(b), b)] for a Python bytes object [b]. *)
Definition buffer_of_bytes (b : bytes) : gss_buffer_desc :=
  mk_gss_buffer_desc (len b) (Some b).

(** [(<char*>b.value)[:b.length]]: the copy into a fresh Python bytes
    object.  (Slicing zero bytes from [NULL] gives the empty bytes.) *)
Definition char_slice (b : gss_buffer_desc) : bytes :=
  match buf_value b with
  | Some bs => take (Z.to_nat (buf_length b)) bs
  | None => []
  end.

(** [<bint>x] for a C int. *)
Definition bint (x : Z) : bool := negb (x =? 0).

(** [size_t] arithmetic wraps modulo 2^64; Python lengths are at most
    [PY_SSIZE_T_MAX]. *)
Definition size_t_modulus : Z := 2 ^ 64.
Definition PY_SSIZE_T_MAX : Z := 2 ^ 63 - 1.

(** References to Python [Creds] objects (object identity). *)
Definition CredsRef := positive.

(** ** Exceptions and outcomes *)

Inductive exn :=
| GSSError (maj_stat min_stat : OM_uint32)
| ValueError (msg : string)
| TypeError (msg : string)
| OverflowError.

Inductive Outcome (A : Type) :=
| Ok (a : A)
| Raise (e : exn)
| OutOfFuel.
Arguments Ok {A} a.
Arguments Raise {A} e.
Arguments OutOfFuel {A}.

(** ** The instrumented native boundary *)

Definition Status : Type := OM_uint32 * OM_uint32.
Definition succeeded (s : Status) : bool := fst s =? GSS_S_COMPLETE.

(** The native entry points with the arguments they are passed.  Pointer
    arguments that may be null are options or, for pure out-pointers,
    the boolean "non-null". *)
Inductive NativeCall :=
| Call_wrap_aead (ctx : gss_ctx_id_t) (conf_req : Z) (qop_req : gss_qop_t)
    (input_assoc_buffer : gss_buffer_t) (input_payload_buffer : gss_buffer_desc)
| Call_unwrap_aead (ctx : gss_ctx_id_t) (input_message_buffer : gss_buffer_desc)
    (input_assoc_buffer : gss_buffer_t)
| Call_add_cred_with_password (input_cred_handle : gss_cred_id_t)
    (desired_name : gss_name_t) (desired_mech : gss_OID_desc)
    (password : gss_buffer_desc) (cred_usage : gss_cred_usage_t)
    (initiator_ttl acceptor_ttl : OM_uint32)
| Call_display_name_ext (name : gss_name_t) (name_type : gss_OID_desc)
| Call_inquire_name (name : gss_name_t)
    (name_is_mn_ptr mech_type_ptr attrs_ptr : bool)
| Call_set_name_attribute (name : gss_name_t) (complete : Z)
    (attr value : gss_buffer_desc)
| Call_get_name_attribute (name : gss_name_t) (attr : gss_buffer_desc)
    (value display_value : gss_buffer_desc) (more : Z)
| Call_delete_name_attribute (name : gss_name_t) (attr : gss_buffer_desc)
| Call_export_name_composite (name : gss_name_t)
| Call_set_cred_option (cred : gss_cred_id_t) (desired_object : gss_OID_desc)
    (value : gss_buffer_desc).

(** Out-parameters of the native calls that have several. *)
Record add_cred_out := mk_add_cred_out {
  ac_output_creds : gss_cred_id_t;
  ac_actual_mechs : gss_OID_set;
  ac_actual_init_ttl : OM_uint32;
  ac_actual_accept_ttl : OM_uint32
}.

Record inquire_name_out := mk_inquire_name_out {
  in_name_is_mn : Z;
  in_mech_type : gss_OID;
  in_attrs : gss_buffer_set_t
}.

Record get_attr_out := mk_get_attr_out {
  ga_authenticated : Z;
  ga_complete : Z;
  ga_value : gss_buffer_desc;
  ga_display_value : gss_buffer_desc;
  ga_more : Z
}.

(** What a native call left in the caller's out-parameters. *)
Inductive NativeOut :=
| Out_buffer (b : gss_buffer_desc)
| Out_wrap_aead (conf_ret : Z) (output_message_buffer : gss_buffer_desc)
| Out_unwrap_aead (output_payload_buffer : gss_buffer_desc) (conf_ret : Z)
    (qop_ret : gss_qop_t)
| Out_add_cred (o : add_cred_out)
| Out_inquire_name (o : inquire_name_out)
| Out_get_name_attribute (o : get_attr_out)
| Out_cred (cred : gss_cred_id_t)
| Out_none.

(** A native output buffer or buffer set, the resources that
    [gss_release_buffer] and [gss_release_buffer_set] give back. *)
Inductive OutParam :=
| OutBuffer (b : gss_buffer_desc)
| OutBufferSet (s : gss_buffer_set_t).

Definition out_buffers (o : NativeOut) : list OutParam :=
  match o with
  | Out_buffer b => [OutBuffer b]
  | Out_wrap_aead _ b => [OutBuffer b]
  | Out_unwrap_aead b _ _ => [OutBuffer b]
  | Out_inquire_name o => [OutBufferSet (in_attrs o)]
  | Out_get_name_attribute o =>
      [OutBuffer (ga_value o); OutBuffer (ga_display_value o)]
  | Out_add_cred _ | Out_cred _ | Out_none => []
  end.

Inductive Event :=
| Native (c : NativeCall) (s : Status) (o : NativeOut)
| CopyOut (o : OutParam)
| ReleaseBuffer (b : gss_buffer_desc)
| ReleaseBufferSet (s : gss_buffer_set_t)
| NewCreds (r : CredsRef).

(** The native library over a world [W].  Every entry point takes the
    arguments the C prototype takes by value or as in-parameters, and
    returns the new world, the (major, minor) status and the values it
    leaves in its out-parameters. *)
Class GssNative (W : Type) := {
  gss_wrap_aead : gss_ctx_id_t → Z → gss_qop_t → gss_buffer_t →
    gss_buffer_desc → W → W * Status * (Z * gss_buffer_desc);
  gss_unwrap_aead : gss_ctx_id_t → gss_buffer_desc → gss_buffer_t →
    W → W * Status * (gss_buffer_desc * Z * gss_qop_t);
  gss_add_cred_with_password : gss_cred_id_t → gss_name_t → gss_OID_desc →
    gss_buffer_desc → gss_cred_usage_t → OM_uint32 → OM_uint32 →
    W → W * Status * add_cred_out;
  gss_display_name_ext : gss_name_t → gss_OID_desc →
    W → W * Status * gss_buffer_desc;
  gss_inquire_name : gss_name_t → bool → bool → bool →
    W → W * Status * inquire_name_out;
  gss_set_name_attribute : gss_name_t → Z → gss_buffer_desc →
    gss_buffer_desc → W → W * Status * unit;
  gss_get_name_attribute : gss_name_t → gss_buffer_desc →
    gss_buffer_desc → gss_buffer_desc → Z → W → W * Status * get_attr_out;
  gss_delete_name_attribute : gss_name_t → gss_buffer_desc →
    W → W * Status * unit;
  gss_export_name_composite : gss_name_t → W → W * Status * gss_buffer_desc;
  gss_set_cred_option : gss_cred_id_t → gss_OID_desc → gss_buffer_desc →
    W → W * Status * gss_cred_id_t;
  gss_release_buffer : gss_buffer_desc → W → W * Status * gss_buffer_desc;
  gss_release_buffer_set : gss_buffer_set_t →
    W → W * Status * gss_buffer_set_t
}.

(** ** Results ([gssapi.raw.named_tuples]) *)

Record WrapResult := mk_WrapResult {
  wrap_message : bytes;
  wrap_encrypted : bool
}.

Record UnwrapResult := mk_UnwrapResult {
  unwrap_message : bytes;
  unwrap_encrypted : bool;
  unwrap_qop : gss_qop_t
}.

Record AddCredResult := mk_AddCredResult {
  add_creds : CredsRef;
  add_mechs : list gss_OID_desc;
  add_init_lifetime : option Z;
  add_accept_lifetime : option Z
}.

Record InquireNameResult := mk_InquireNameResult {
  inq_attrs : list bytes;
  inq_is_mech_name : bool;
  inq_mech : option gss_OID_desc
}.

Record GetNameAttributeResult := mk_GetNameAttributeResult {
  get_values : list bytes;
  get_display_values : list bytes;
  get_authenticated : bool;
  get_complete : bool
}.

(** ** Converters ([gssapi.raw.cython_converters]) *)

(** Modelled from the spec: [c_py_ttl_to_c] is declared in
    [cython_converters], which is not part of the sources at hand.  An
    absent TTL is translated to the native "indefinite" sentinel, a
    present one (zero included) is passed as it is. *)
Definition c_py_ttl_to_c (ttl : option Z) : OM_uint32 :=
  match ttl with
  | None => GSS_C_INDEFINITE
  | Some t => t
  end.

(** Modelled from the spec: [c_c_ttl_to_py], the inverse translation of
    the TTLs the native call reports. *)
Definition c_c_ttl_to_py (ttl : OM_uint32) : option Z :=
  if ttl =? GSS_C_INDEFINITE then None else Some ttl.

(** Modelled from the spec: [c_create_oid_set] turns the native set of
    actual mechanisms into the Python collection of its members. *)
Definition c_create_oid_set (mechs : gss_OID_set) : list gss_OID_desc := mechs.

(** What a write through an out-pointer leaves in the caller's local:
    the native value when the pointer is non-null, the old one when the
    pointer passed is [NULL]. *)
Definition store {A} (ptr_non_null : bool) (old new : A) : A :=
  if ptr_non_null then new else old.

(** The locals [name_is_mn], [mn_mech] and [attr_names] of [inquire_name]
    after the native call: [name_is_mn] starts as 0 and [attr_names] as
    the empty-set sentinel; [mn_mech] has no initialiser and is read
    only when [name_is_mn] is non-zero. *)
Definition inquire_name_locals (name_is_mn_ptr mn_mech_ptr attr_names_ptr : bool)
    (o : inquire_name_out) : inquire_name_out :=
  mk_inquire_name_out
    (store name_is_mn_ptr 0 (in_name_is_mn o))
    (store mn_mech_ptr None (in_mech_type o))
    (store attr_names_ptr GSS_C_NO_BUFFER_SET (in_attrs o)).

Definition dquote : string := String "034"%char EmptyString.

(** ** The wrapper monad *)

Record PyState (W : Type) := mk_PyState {
  world : W;
  creds_heap : gmap CredsRef gss_cred_id_t
}.
Arguments mk_PyState {W} _ _.
Arguments world {W} _.
Arguments creds_heap {W} _.

Definition M (W A : Type) : Type :=
  PyState W → Outcome A * PyState W * list Event.

Definition ret {W A} (a : A) : M W A := λ st, (Ok a, st, []).

Definition bind {W A B} (m : M W A) (k : A → M W B) : M W B :=
  λ st,
    match m st with
    | (Ok a, st1, t1) =>
        match k a st1 with
        | (o, st2, t2) => (o, st2, t1 ++ t2)
        end
    | (Raise e, st1, t1) => (Raise e, st1, t1)
    | (OutOfFuel, st1, t1) => (OutOfFuel, st1, t1)
    end.

Definition raise {W A} (e : exn) : M W A := λ st, (Raise e, st, []).
Definition out_of_fuel {W A} : M W A := λ st, (OutOfFuel, st, []).

#[global] Instance M_ret {W} : MRet (M W) := λ A, ret.
#[global] Instance M_bind {W} : MBind (M W) := λ A B k m, bind m k.

(** An invocation of one of the wrappers, and what it returns. *)
Inductive Operation :=
| Op_wrap_aead (context : gss_ctx_id_t) (message : bytes)
    (associated : option bytes) (confidential : bool) (qop : option Z)
| Op_unwrap_aead (context : gss_ctx_id_t) (message : bytes)
    (associated : option bytes)
| Op_add_cred_with_password (input_cred : option CredsRef)
    (name : gss_name_t) (mech : gss_OID_desc) (password : bytes)
    (usage : string) (init_lifetime accept_lifetime : option Z)
| Op_display_name_ext (name : gss_name_t) (name_type : gss_OID_desc)
| Op_inquire_name (name : gss_name_t) (mech_name attrs : bool)
| Op_set_name_attribute (name : gss_name_t) (attr : bytes)
    (value : list bytes) (complete : bool) (i : Z)
| Op_get_name_attribute (name : gss_name_t) (attr : bytes)
    (complete authenticated : Z)
| Op_delete_name_attribute (name : gss_name_t) (attr : bytes)
| Op_export_name_composite (name : gss_name_t)
| Op_set_cred_option (desired_aspect : gss_OID_desc)
    (creds : option CredsRef) (value : option bytes).

Inductive PyResult :=
| R_wrap (r : WrapResult)
| R_unwrap (r : UnwrapResult)
| R_add_cred (r : AddCredResult)
| R_bytes (b : bytes)
| R_inquire (r : InquireNameResult)
| R_get_attr (r : GetNameAttributeResult)
| R_creds (c : CredsRef)
| R_None.

Section Wrappers.
Context {W : Type} {N : GssNative W}.

(** One call of a native entry point: run it on the world and record
    it with its status and output buffers. *)
Definition native_call {O} (c : NativeCall) (f : W → W * Status * O)
    (outs : O → NativeOut) : M W (Status * O) :=
  λ st,
    match f (world st) with
    | (w', s, o) =>
        (Ok (s, o), mk_PyState w' (creds_heap st), [Native c s (outs o)])
    end.

(** [gss_release_buffer(&min_stat, &b)]: the status is not inspected;
    the result is the descriptor as the native call leaves it. *)
Definition release_buffer (b : gss_buffer_desc) : M W gss_buffer_desc :=
  λ st,
    match gss_release_buffer b (world st) with
    | (w', _, b') =>
        (Ok b', mk_PyState w' (creds_heap st), [ReleaseBuffer b])
    end.

(** The copy of a native buffer into a Python bytes object, recorded. *)
Definition copy_out (b : gss_buffer_desc) : M W bytes :=
  λ st, (Ok (char_slice b), st, [CopyOut (OutBuffer b)]).

(** The loop [for i in range(s.count)] that copies every element of a
    buffer set into a Python list, recorded as one copy of the set. *)
Definition copy_out_set (elements : list gss_buffer_desc) : M W (list bytes) :=
  λ st, (Ok (map char_slice elements), st,
         [CopyOut (OutBufferSet (Some elements))]).

Definition release_buffer_set (s : gss_buffer_set_t) : M W gss_buffer_set_t :=
  λ st,
    match gss_release_buffer_set s (world st) with
    | (w', _, s') =>
        (Ok s', mk_PyState w' (creds_heap st), [ReleaseBufferSet s])
    end.

(** *** ext_rfc6680: set_name_attribute *)

(** The body of [for val in value].  [i] is the C local [size_t i]. *)
Fixpoint set_name_attribute_loop (name : gss_name_t) (complete : bool)
    (attr_buff : gss_buffer_desc) (value_len : Z) (i : Z)
    (value : list bytes) : M W unit :=
  match value with
  | [] => ret tt
  | val :: rest =>
      let val_buff := buffer_of_bytes val in
      let i := (i + 1) mod size_t_modulus in
      '((maj_stat, min_stat), _) ←
        (if i =? value_len then
           native_call
             (Call_set_name_attribute name (Z.b2z complete) attr_buff val_buff)
             (gss_set_name_attribute name (Z.b2z complete) attr_buff val_buff)
             (λ _, Out_none)
         else
           native_call
             (Call_set_name_attribute name 0 attr_buff val_buff)
             (gss_set_name_attribute name 0 attr_buff val_buff)
             (λ _, Out_none));
      if negb (maj_stat =? GSS_S_COMPLETE) then raise (GSSError maj_stat min_stat)
      else set_name_attribute_loop name complete attr_buff value_len i rest
  end.

(** [cdef size_t i] has no initialiser: the value the local holds when
    the loop is entered is the parameter [i]. *)
Definition set_name_attribute (name : gss_name_t) (attr : bytes)
    (value : list bytes) (complete : bool) (i : Z) : M W unit :=
  let attr_buff := buffer_of_bytes attr in
  let value_len := len value in
  set_name_attribute_loop name complete attr_buff value_len i value.

(** *** The store of Python [Creds] objects *)

(** Modelled from the spec: the [Creds] class lives in
    [gssapi.raw.creds], which is not part of the sources at hand.
    [Creds()] makes a new object, distinct from every existing one,
    that holds no native credential yet. *)
Definition new_Creds : M W CredsRef :=
  λ st,
    let r := fresh (dom (creds_heap st)) in
    (Ok r, mk_PyState (world st) (<[r := GSS_C_NO_CREDENTIAL]> (creds_heap st)),
     [NewCreds r]).

(** [c.raw_creds] *)
Definition get_raw_creds (c : CredsRef) : M W gss_cred_id_t :=
  λ st, (Ok (default GSS_C_NO_CREDENTIAL (creds_heap st !! c)), st, []).

(** [c.raw_creds = h] *)
Definition set_raw_creds (c : CredsRef) (h : gss_cred_id_t) : M W unit :=
  λ st, (Ok tt, mk_PyState (world st) (<[c := h]> (creds_heap st)), []).

(** The [not None] clause of an argument declaration. *)
Definition not_None {A} (arg : string) (a : option A) : M W A :=
  match a with
  | Some x => ret x
  | None => raise (TypeError ("Argument '" +:+ arg +:+ "' must not be None"))
  end.

(** *** ext_rfc6680: get_name_attribute *)

(** [while more_val != 0], with the locals the loop carries. *)
Fixpoint get_name_attribute_loop (fuel : nat) (name : gss_name_t)
    (attr_buff val_buff displ_val_buff : gss_buffer_desc)
    (complete authenticated more_val : Z)
    (py_vals py_displ_vals : list bytes) {struct fuel}
    : M W (list bytes * list bytes * Z * Z) :=
  if more_val =? 0 then ret (py_vals, py_displ_vals, authenticated, complete)
  else
    match fuel with
    | O => out_of_fuel
    | S fuel =>
        '((maj_stat, min_stat), o) ←
          native_call
            (Call_get_name_attribute name attr_buff val_buff displ_val_buff
               more_val)
            (gss_get_name_attribute name attr_buff val_buff displ_val_buff
               more_val)
            Out_get_name_attribute;
        if maj_stat =? GSS_S_COMPLETE then
          val ← copy_out (ga_value o);
          let py_vals := py_vals ++ [val] in
          displ_val ← copy_out (ga_display_value o);
          let py_displ_vals := py_displ_vals ++ [displ_val] in
          val_buff ← release_buffer (ga_value o);
          displ_val_buff ← release_buffer (ga_display_value o);
          get_name_attribute_loop fuel name attr_buff val_buff displ_val_buff
            (ga_complete o) (ga_authenticated o) (ga_more o)
            py_vals py_displ_vals
        else raise (GSSError maj_stat min_stat)
    end.

(** [cdef int complete] and [cdef int authenticated] have no
    initialiser: what they hold before the first native call are the
    parameters [complete] and [authenticated].  (The Python argument
    [more=None] of the wrapper is never read and is left out.) *)
Definition get_name_attribute (fuel : nat) (name : gss_name_t) (attr : bytes)
    (complete authenticated : Z) : M W GetNameAttributeResult :=
  let attr_buff := buffer_of_bytes attr in
  let val_buff := mk_gss_buffer_desc 0 None in
  let displ_val_buff := mk_gss_buffer_desc 0 None in
  let more_val := -1 in
  '(py_vals, py_displ_vals, authenticated, complete) ←
    get_name_attribute_loop fuel name attr_buff val_buff displ_val_buff
      complete authenticated more_val [] [];
  ret (mk_GetNameAttributeResult py_vals py_displ_vals (bint authenticated)
         (bint complete)).

(** *** ext_rfc6680: display_name_ext, inquire_name,
    delete_name_attribute, export_name_composite *)

Definition display_name_ext (name : gss_name_t) (name_type : gss_OID_desc)
    : M W bytes :=
  '((maj_stat, min_stat), output_name) ←
    native_call (Call_display_name_ext name name_type)
      (gss_display_name_ext name name_type) Out_buffer;
  if maj_stat =? GSS_S_COMPLETE then
    name_text ← copy_out output_name;
    _ ← release_buffer output_name;
    ret name_text
  else raise (GSSError maj_stat min_stat).

Definition inquire_name (name : gss_name_t) (mech_name attrs : bool)
    : M W InquireNameResult :=
  (* the three out-pointers: [true] when set to the address of a local *)
  let attr_names_ptr := attrs in
  let name_is_mn_ptr := mech_name in
  let mn_mech_ptr := mech_name in
  '((maj_stat, min_stat), o) ←
    native_call
      (Call_inquire_name name name_is_mn_ptr mn_mech_ptr attr_names_ptr)
      (gss_inquire_name name name_is_mn_ptr mn_mech_ptr attr_names_ptr)
      (λ o, Out_inquire_name
              (inquire_name_locals name_is_mn_ptr mn_mech_ptr attr_names_ptr o));
  let locals :=
    inquire_name_locals name_is_mn_ptr mn_mech_ptr attr_names_ptr o in
  let attr_names := in_attrs locals in
  let name_is_mn := in_name_is_mn locals in
  let mn_mech := in_mech_type locals in
  if maj_stat =? GSS_S_COMPLETE then
    py_attr_names ←
      match attr_names with
      | Some elements =>
          py_attr_names ← copy_out_set elements;
          _ ← release_buffer_set attr_names;
          ret py_attr_names
      | None => ret []
      end;
    let py_mech :=
      if bint name_is_mn then Some (default [] mn_mech) else None in
    ret (mk_InquireNameResult py_attr_names (bint name_is_mn) py_mech)
  else raise (GSSError maj_stat min_stat).

Definition delete_name_attribute (name : gss_name_t) (attr : bytes)
    : M W unit :=
  let attr_buff := buffer_of_bytes attr in
  '((maj_stat, min_stat), _) ←
    native_call (Call_delete_name_attribute name attr_buff)
      (gss_delete_name_attribute name attr_buff) (λ _, Out_none);
  if negb (maj_stat =? GSS_S_COMPLETE) then raise (GSSError maj_stat min_stat)
  else ret tt.

Definition export_name_composite (name : gss_name_t) : M W bytes :=
  '((maj_stat, min_stat), res) ←
    native_call (Call_export_name_composite name)
      (gss_export_name_composite name) Out_buffer;
  if maj_stat =? GSS_S_COMPLETE then
    py_res ← copy_out res;
    _ ← release_buffer res;
    ret py_res
  else raise (GSSError maj_stat min_stat).

(** *** set_cred_option *)

Definition set_cred_option (desired_aspect : gss_OID_desc)
    (creds : option CredsRef) (value : option bytes) : M W CredsRef :=
  let value_buffer :=
    match value with
    | Some v => buffer_of_bytes v
    | None => mk_gss_buffer_desc 0 None
    end in
  output_creds ←
    match creds with
    | Some c => ret c
    | None => new_Creds
    end;
  (* [&output_creds.raw_creds] is an in/out parameter *)
  raw ← get_raw_creds output_creds;
  '((maj_stat, min_stat), raw') ←
    native_call (Call_set_cred_option raw desired_aspect value_buffer)
      (gss_set_cred_option raw desired_aspect value_buffer) Out_cred;
  _ ← set_raw_creds output_creds raw';
  if maj_stat =? GSS_S_COMPLETE then ret output_creds
  else raise (GSSError maj_stat min_stat).

(** *** ext_dce_aead *)

Definition wrap_aead (context : gss_ctx_id_t) (message : bytes)
    (associated : option bytes) (confidential : bool) (qop : option Z)
    : M W WrapResult :=
  let conf_req := Z.b2z confidential in
  (* [cdef gss_qop_t qop_req = ...]: the conversion of the Python integer
     raises OverflowError when it does not fit *)
  qop_req ←
    match qop_req_of qop with
    | Some q => ret q
    | None => raise OverflowError
    end;
  let message_buffer := buffer_of_bytes message in
  let assoc_buffer_ptr :=
    match associated with
    | Some a => Some (buffer_of_bytes a)
    | None => GSS_C_NO_BUFFER
    end in
  '((maj_stat, min_stat), (conf_used, output_buffer)) ←
    native_call
      (Call_wrap_aead context conf_req qop_req assoc_buffer_ptr message_buffer)
      (gss_wrap_aead context conf_req qop_req assoc_buffer_ptr message_buffer)
      (λ o, Out_wrap_aead (fst o) (snd o));
  if maj_stat =? GSS_S_COMPLETE then
    output_message ← copy_out output_buffer;
    _ ← release_buffer output_buffer;
    ret (mk_WrapResult output_message (bint conf_used))
  else raise (GSSError maj_stat min_stat).

Definition unwrap_aead (context : gss_ctx_id_t) (message : bytes)
    (associated : option bytes) : M W UnwrapResult :=
  let input_buffer := buffer_of_bytes message in
  let assoc_buffer_ptr :=
    match associated with
    | Some a => Some (buffer_of_bytes a)
    | None => GSS_C_NO_BUFFER
    end in
  '((maj_stat, min_stat), (output_buffer, conf_state, qop_state)) ←
    native_call (Call_unwrap_aead context input_buffer assoc_buffer_ptr)
      (gss_unwrap_aead context input_buffer assoc_buffer_ptr)
      (λ o, Out_unwrap_aead (fst (fst o)) (snd (fst o)) (snd o));
  if maj_stat =? GSS_S_COMPLETE then
    output_message ← copy_out output_buffer;
    _ ← release_buffer output_buffer;
    ret (mk_UnwrapResult output_message (bint conf_state) qop_state)
  else raise (GSSError maj_stat min_stat).

(** *** ext_password_add *)

Definition invalid_usage_message (usage : string) : string :=
  "Invalid usage " +:+ dquote +:+ usage +:+ dquote
    +:+ " - permitted values are " +:+ dquote +:+ "initiate" +:+ dquote
    +:+ ", " +:+ dquote +:+ "accept" +:+ dquote +:+ ", and "
    +:+ dquote +:+ "both" +:+ dquote.

Definition add_cred_with_password (input_cred : option CredsRef)
    (name : gss_name_t) (mech : gss_OID_desc) (password : bytes)
    (usage : string) (init_lifetime accept_lifetime : option Z)
    : M W AddCredResult :=
  input_cred ← not_None "input_cred" input_cred;
  let password_buffer := buffer_of_bytes password in
  c_usage ←
    (if String.eqb usage "initiate" then ret GSS_C_INITIATE
     else if String.eqb usage "accept" then ret GSS_C_ACCEPT
     else if String.eqb usage "both" then ret GSS_C_BOTH
     else raise (ValueError (invalid_usage_message usage)));
  let input_initiator_ttl := c_py_ttl_to_c init_lifetime in
  let input_acceptor_ttl := c_py_ttl_to_c accept_lifetime in
  raw ← get_raw_creds input_cred;
  '((maj_stat, min_stat), o) ←
    native_call
      (Call_add_cred_with_password raw name mech password_buffer c_usage
         input_initiator_ttl input_acceptor_ttl)
      (gss_add_cred_with_password raw name mech password_buffer c_usage
         input_initiator_ttl input_acceptor_ttl)
      Out_add_cred;
  if maj_stat =? GSS_S_COMPLETE then
    rc ← new_Creds;
    _ ← set_raw_creds rc (ac_output_creds o);
    ret (mk_AddCredResult rc (c_create_oid_set (ac_actual_mechs o))
           (c_c_ttl_to_py (ac_actual_init_ttl o))
           (c_c_ttl_to_py (ac_actual_accept_ttl o)))
  else raise (GSSError maj_stat min_stat).

(** *** All the wrappers as one family *)

Definition run_op (fuel : nat) (op : Operation) : M W PyResult :=
  match op with
  | Op_wrap_aead context message associated confidential qop =>
      r ← wrap_aead context message associated confidential qop;
      ret (R_wrap r)
  | Op_unwrap_aead context message associated =>
      r ← unwrap_aead context message associated; ret (R_unwrap r)
  | Op_add_cred_with_password input_cred name mech password usage
      init_lifetime accept_lifetime =>
      r ← add_cred_with_password input_cred name mech password usage
            init_lifetime accept_lifetime;
      ret (R_add_cred r)
  | Op_display_name_ext name name_type =>
      r ← display_name_ext name name_type; ret (R_bytes r)
  | Op_inquire_name name mech_name attrs =>
      r ← inquire_name name mech_name attrs; ret (R_inquire r)
  | Op_set_name_attribute name attr value complete i =>
      _ ← set_name_attribute name attr value complete i; ret R_None
  | Op_get_name_attribute name attr complete authenticated =>
      r ← get_name_attribute fuel name attr complete authenticated;
      ret (R_get_attr r)
  | Op_delete_name_attribute name attr =>
      _ ← delete_name_attribute name attr; ret R_None
  | Op_export_name_composite name =>
      r ← export_name_composite name; ret (R_bytes r)
  | Op_set_cred_option desired_aspect creds value =>
      r ← set_cred_option desired_aspect creds value; ret (R_creds r)
  end.

End Wrappers.

(** ** Reading a trace *)

#[global] Instance byte_eq_dec : EqDecision Byte.byte := Strings.Byte.byte_eq_dec.
#[global] Instance gss_buffer_desc_eq_dec : EqDecision gss_buffer_desc.
Proof. solve_decision. Defined.
#[global] Instance OutParam_eq_dec : EqDecision OutParam.
Proof. solve_decision. Defined.

(** The native calls of a trace, in order. *)
Definition native_calls (t : list Event) : list NativeCall :=
  omap (λ e, match e with Native c _ _ => Some c | _ => None end) t.

(** The statuses the native calls of a trace reported, in order. *)
Definition statuses (t : list Event) : list Status :=
  omap (λ e, match e with Native _ s _ => Some s | _ => None end) t.

(** An output buffer is populated when the native call left a non-null
    pointer in it. *)
Definition populated_param (o : OutParam) : bool :=
  match o with
  | OutBuffer b => match buf_value b with Some _ => true | None => false end
  | OutBufferSet s => match s with Some _ => true | None => false end
  end.

(** The output buffers the native calls of a trace populated. *)
Definition populated (t : list Event) : list OutParam :=
  flat_map (λ e, match e with
                 | Native _ _ o => List.filter populated_param (out_buffers o)
                 | _ => []
                 end) t.

(** The buffers the release calls of a trace were applied to. *)
Definition released (t : list Event) : list OutParam :=
  flat_map (λ e, match e with
                 | ReleaseBuffer b => [OutBuffer b]
                 | ReleaseBufferSet s => [OutBufferSet s]
                 | _ => []
                 end) t.

(** The output buffers of the native calls of a trace that reported
    success, the empty-set sentinel apart. *)
Definition handed_over (t : list Event) : list OutParam :=
  flat_map (λ e, match e with
                 | Native _ s o =>
                     if succeeded s then
                       List.filter
                         (λ p, match p with
                               | OutBufferSet None => false
                               | _ => true
                               end) (out_buffers o)
                     else []
                 | _ => []
                 end) t.

(** Removal of the first occurrence; [None] when there is none. *)
Fixpoint take_out (o : OutParam) (l : list OutParam) : option (list OutParam) :=
  match l with
  | [] => None
  | x :: l' =>
      if decide (x = o) then Some l'
      else match take_out o l' with
           | Some r => Some (x :: r)
           | None => None
           end
  end.

(** The life cycle of native output buffers along a trace.  The state is
    the buffers populated and not yet copied, and the buffers copied and
    not yet released.  A copy must be of a populated buffer, a release
    of a copied one; [None] is a violation. *)
Fixpoint lifecycle (owed copied : list OutParam) (t : list Event)
    : option (list OutParam * list OutParam) :=
  match t with
  | [] => Some (owed, copied)
  | Native _ _ o :: t' =>
      lifecycle (owed ++ List.filter populated_param (out_buffers o)) copied t'
  | CopyOut o :: t' =>
      match take_out o owed with
      | Some owed' => lifecycle owed' (copied ++ [o]) t'
      | None => None
      end
  | ReleaseBuffer b :: t' =>
      match take_out (OutBuffer b) copied with
      | Some copied' => lifecycle owed copied' t'
      | None => None
      end
  | ReleaseBufferSet s :: t' =>
      match take_out (OutBufferSet s) copied with
      | Some copied' => lifecycle owed copied' t'
      | None => None
      end
  | NewCreds _ :: t' => lifecycle owed copied t'
  end.

(** The same life cycle read by status instead of by content: the
    buffers owed are the output buffers of the native calls that
    reported success (the empty-set sentinel apart), whether or not the
    call left a pointer in them. *)
Fixpoint custody (owed copied : list OutParam) (t : list Event)
    : option (list OutParam * list OutParam) :=
  match t with
  | [] => Some (owed, copied)
  | Native _ s o :: t' =>
      custody
        (owed ++ if succeeded s then
                   List.filter
                     (λ p, match p with
                           | OutBufferSet None => false
                           | _ => true
                           end) (out_buffers o)
                 else []) copied t'
  | CopyOut o :: t' =>
      match take_out o owed with
      | Some owed' => custody owed' (copied ++ [o]) t'
      | None => None
      end
  | ReleaseBuffer b :: t' =>
      match take_out (OutBuffer b) copied with
      | Some copied' => custody owed copied' t'
      | None => None
      end
  | ReleaseBufferSet s :: t' =>
      match take_out (OutBufferSet s) copied with
      | Some copied' => custody owed copied' t'
      | None => None
      end
  | NewCreds _ :: t' => custody owed copied t'
  end.

(** The contract of the native library on its output buffers: a call
    hands a buffer to its caller exactly when it reports success.  (The
    attribute-name set of [gss_inquire_name] may stay the empty-set
    sentinel on success.) *)
Record native_contract {W} (N : GssNative W) : Prop := {
  wrap_aead_contract : ∀ ctx c q a m w,
    populated_param (OutBuffer (gss_wrap_aead ctx c q a m w).2.2)
    = succeeded (gss_wrap_aead ctx c q a m w).1.2;
  unwrap_aead_contract : ∀ ctx m a w,
    populated_param (OutBuffer (gss_unwrap_aead ctx m a w).2.1.1)
    = succeeded (gss_unwrap_aead ctx m a w).1.2;
  display_name_ext_contract : ∀ n t w,
    populated_param (OutBuffer (gss_display_name_ext n t w).2)
    = succeeded (gss_display_name_ext n t w).1.2;
  export_name_composite_contract : ∀ n w,
    populated_param (OutBuffer (gss_export_name_composite n w).2)
    = succeeded (gss_export_name_composite n w).1.2;
  get_name_attribute_contract : ∀ n a v d m w,
    populated_param (OutBuffer (ga_value (gss_get_name_attribute n a v d m w).2))
    = succeeded (gss_get_name_attribute n a v d m w).1.2
    ∧ populated_param
        (OutBuffer (ga_display_value (gss_get_name_attribute n a v d m w).2))
      = succeeded (gss_get_name_attribute n a v d m w).1.2;
  inquire_name_contract : ∀ n p1 p2 p3 w,
    succeeded (gss_inquire_name n p1 p2 p3 w).1.2 = false →
    in_attrs (gss_inquire_name n p1 p2 p3 w).2 = None
}.

(** The native call events of [gss_get_name_attribute] in a trace: the
    continuation flag passed in, the status and the out-parameters. *)
Definition get_attr_events (t : list Event)
    : list (Z * Status * get_attr_out) :=
  omap (λ e, match e with
             | Native (Call_get_name_attribute _ _ _ _ m) s
                 (Out_get_name_attribute o) => Some (m, s, o)
             | _ => None
             end) t.

(** The events of one successful turn of [while more_val != 0] in
    [get_name_attribute]. *)
Definition get_turn_events (name : gss_name_t)
    (ab v d : gss_buffer_desc) (more : Z) (s : Status) (o : get_attr_out)
    : list Event :=
  [Native (Call_get_name_attribute name ab v d more) s
     (Out_get_name_attribute o);
   CopyOut (OutBuffer (ga_value o));
   CopyOut (OutBuffer (ga_display_value o));
   ReleaseBuffer (ga_value o);
   ReleaseBuffer (ga_display_value o)].

(** The pagination protocol, read off successive native calls: a call is
    made exactly when the flag at hand is not zero, it receives that
    flag, it succeeds, and the flag it returns decides the next step. *)
Fixpoint drain_chain (more : Z) (evs : list (Z * Status * get_attr_out))
    : Prop :=
  match evs with
  | [] => more = 0
  | (m, s, o) :: evs' =>
      more ≠ 0 ∧ m = more ∧ succeeded s = true ∧ drain_chain (ga_more o) evs'
  end.

(** The status discipline of a wrapper invocation, read off its outcome
    and the statuses of the native calls it made. *)
Definition status_discipline {A} (o : Outcome A) (sts : list Status) : Prop :=
  match o with
  | Ok _ => Forall (λ s, succeeded s = true) sts
  | Raise (GSSError maj_stat min_stat) =>
      ∃ pre, sts = pre ++ [(maj_stat, min_stat)]
             ∧ Forall (λ s, succeeded s = true) pre
             ∧ succeeded (maj_stat, min_stat) = false
  | Raise (ValueError _) | Raise (TypeError _) | Raise OverflowError =>
      sts = []
  | OutOfFuel => Forall (λ s, succeeded s = true) sts
  end.

(** The same discipline for the part of a wrapper that follows its
    argument checks, where the only exception is the translated status. *)
Definition native_discipline {A} (o : Outcome A) (sts : list Status) : Prop :=
  match o with
  | Ok _ | OutOfFuel => Forall (λ s, succeeded s = true) sts
  | Raise e =>
      ∃ pre s, sts = pre ++ [s]
               ∧ Forall (λ s, succeeded s = true) pre
               ∧ succeeded s = false
               ∧ e = GSSError (fst s) (snd s)
  end.

Definition is_get_name_attribute (op : Operation) : bool :=
  match op with
  | Op_get_name_attribute _ _ _ _ => true
  | _ => false
  end.

(** The multi-value protocol as the specification words it: one native
    call per value, in order, the completeness flag false for all but
    the last value and the caller's [complete] for the last. *)
Fixpoint expected_set_calls (name : gss_name_t) (complete : bool)
    (attr_buff : gss_buffer_desc) (value : list bytes) : list NativeCall :=
  match value with
  | [] => []
  | [val] =>
      [Call_set_name_attribute name (Z.b2z complete) attr_buff
         (buffer_of_bytes val)]
  | val :: rest =>
      Call_set_name_attribute name 0 attr_buff (buffer_of_bytes val)
      :: expected_set_calls name complete attr_buff rest
  end.

(** The accepted usage literals and their native constants. *)
Definition usage_table : list (string * gss_cred_usage_t) :=
  [("initiate"%string, GSS_C_INITIATE); ("accept"%string, GSS_C_ACCEPT);
   ("both"%string, GSS_C_BOTH)].

(** The exceptions raised by the binding itself, before any native call. *)
Definition InvalidInput (e : exn) : Prop :=
  match e with
  | ValueError _ | TypeError _ | OverflowError => True
  | GSSError _ _ => False
  end.

(** ** A test double of the native library

    The world counts the entry points called.  Calls on the null name or
    context fail, [gss_set_name_attribute] rejects an empty value, and
    [gss_get_name_attribute] serves two values. *)
Module Double.

Definition GSS_S_BAD_NAME : OM_uint32 := 131072.
Definition GSS_S_NO_CONTEXT : OM_uint32 := 524288.
Definition GSS_S_FAILURE : OM_uint32 := 851968.
Definition GSS_S_UNAVAILABLE : OM_uint32 := 1048576.

Definition v1 : bytes := [Byte.x76; Byte.x31].
Definition v2 : bytes := [Byte.x76; Byte.x32].
Definition d1 : bytes := [Byte.x64; Byte.x31].
Definition d2 : bytes := [Byte.x64; Byte.x32].
Definition key : bytes := [Byte.x6b].

Definition ok : Status := (GSS_S_COMPLETE, 0).

#[global] Instance native : GssNative nat := {|
  gss_wrap_aead ctx conf_req qop assoc payload w :=
    if ctx =? 0 then (S w, (GSS_S_NO_CONTEXT, 1), (0, GSS_C_EMPTY_BUFFER))
    else (S w, ok,
          (conf_req,
           match assoc with
           | Some a =>
               buffer_of_bytes (char_slice a ++ char_slice payload)
           | None => buffer_of_bytes (char_slice payload)
           end));
  gss_unwrap_aead ctx msg assoc w :=
    if ctx =? 0 then (S w, (GSS_S_NO_CONTEXT, 1), (GSS_C_EMPTY_BUFFER, 0, 0))
    else (S w, ok, (buffer_of_bytes (char_slice msg), 1, 0));
  gss_add_cred_with_password cred name mech password usage ittl attl w :=
    if name =? 0 then
      (S w, (GSS_S_BAD_NAME, 2), mk_add_cred_out 0 [] 0 0)
    else (S w, ok, mk_add_cred_out 7 [mech] ittl attl);
  gss_display_name_ext name name_type w :=
    if name =? 0 then (S w, (GSS_S_BAD_NAME, 2), GSS_C_EMPTY_BUFFER)
    else (S w, ok, buffer_of_bytes key);
  gss_inquire_name name p_mn p_mech p_attrs w :=
    if name =? 0 then
      (S w, (GSS_S_BAD_NAME, 2), mk_inquire_name_out 0 None None)
    else
      (S w, ok,
       mk_inquire_name_out 1 (Some key) (Some [buffer_of_bytes key]));
  gss_set_name_attribute name complete attr value w :=
    if buf_length value =? 0 then (S w, (GSS_S_UNAVAILABLE, 3), tt)
    else (S w, ok, tt);
  gss_get_name_attribute name attr value display more w :=
    if name =? 0 then
      (S w, (GSS_S_UNAVAILABLE, 4),
       mk_get_attr_out 0 0 GSS_C_EMPTY_BUFFER GSS_C_EMPTY_BUFFER more)
    else if more <? 0 then
      (S w, ok,
       mk_get_attr_out 1 0 (buffer_of_bytes v1) (buffer_of_bytes d1) 1)
    else
      (S w, ok,
       mk_get_attr_out 1 1 (buffer_of_bytes v2) (buffer_of_bytes d2) 0);
  gss_delete_name_attribute name attr w :=
    if name =? 0 then (S w, (GSS_S_BAD_NAME, 2), tt) else (S w, ok, tt);
  gss_export_name_composite name w :=
    if name =? 0 then (S w, (GSS_S_BAD_NAME, 2), GSS_C_EMPTY_BUFFER)
    else (S w, ok, buffer_of_bytes key);
  gss_set_cred_option cred oid value w :=
    match oid with
    | [] => (S w, (GSS_S_FAILURE, 5), cred)
    | _ => (S w, ok, if cred =? 0 then 9 else cred)
    end;
  gss_release_buffer b w := (S w, ok, GSS_C_EMPTY_BUFFER);
  gss_release_buffer_set s w := (S w, ok, GSS_C_NO_BUFFER_SET)
|}.

(** The interpreter state before any call: no native call made, no
    [Creds] object allocated. *)
Definition st0 : PyState nat := mk_PyState 0%nat ∅.

End Double.

(** ** A reference native library

    AEAD wrapping is a loop-back of the payload bytes, and the name
    attributes are kept in a store keyed by name and attribute: a set
    call appends one value, a get call serves the stored values one per
    call, with the number of values still to come as continuation flag.
    The entry points that the reference does not implement report
    [GSS_S_UNAVAILABLE]. *)
Module Reference.

#[global] Instance byte_countable : Countable Byte.byte :=
  inj_countable Strings.Byte.to_N Strings.Byte.of_N Strings.Byte.of_to_N.

Definition unavailable : Status := (Double.GSS_S_UNAVAILABLE, 0).

(** The values of an attribute in the order they were set, and whether
    the value set was marked complete. *)
Definition attr_values
    (w : gmap (gss_name_t * bytes) (list bytes * bool))
    (name : gss_name_t) (attr : bytes) : list bytes * bool :=
  default ([], false) (w !! (name, attr)).

#[global] Instance native
    : GssNative (gmap (gss_name_t * bytes) (list bytes * bool)) := {|
  gss_wrap_aead ctx conf_req qop assoc payload w :=
    (w, Double.ok, (conf_req, buffer_of_bytes (char_slice payload)));
  gss_unwrap_aead ctx msg assoc w :=
    (w, Double.ok, (buffer_of_bytes (char_slice msg), 1, 0));
  gss_add_cred_with_password cred name mech password usage ittl attl w :=
    (w, unavailable, mk_add_cred_out 0 [] 0 0);
  gss_display_name_ext name name_type w :=
    (w, unavailable, GSS_C_EMPTY_BUFFER);
  gss_inquire_name name p_mn p_mech p_attrs w :=
    (w, unavailable, mk_inquire_name_out 0 None None);
  gss_set_name_attribute name complete attr value w :=
    let k := (name, char_slice attr) in
    let old := attr_values w name (char_slice attr) in
    (<[k := (old.1 ++ [char_slice value], old.2 || bint complete)]> w,
     Double.ok, tt);
  gss_get_name_attribute name attr value display more w :=
    let stored := attr_values w name (char_slice attr) in
    let idx :=
      if more <? 0 then 0%nat else (length stored.1 - Z.to_nat more)%nat in
    match stored.1 !! idx with
    | Some x =>
        (w, Double.ok,
         mk_get_attr_out 0 (Z.b2z stored.2) (buffer_of_bytes x)
           (buffer_of_bytes x) (len stored.1 - Z.of_nat idx - 1))
    | None =>
        (w, unavailable,
         mk_get_attr_out 0 0 GSS_C_EMPTY_BUFFER GSS_C_EMPTY_BUFFER more)
    end;
  gss_delete_name_attribute name attr w :=
    match w !! (name, char_slice attr) with
    | Some _ => (delete (name, char_slice attr) w, Double.ok, tt)
    | None => (w, unavailable, tt)
    end;
  gss_export_name_composite name w := (w, unavailable, GSS_C_EMPTY_BUFFER);
  gss_set_cred_option cred oid value w := (w, unavailable, cred);
  gss_release_buffer b w := (w, Double.ok, GSS_C_EMPTY_BUFFER);
  gss_release_buffer_set s w := (w, Double.ok, GSS_C_NO_BUFFER_SET)
|}.

(** The interpreter state over an empty attribute store. *)
Definition st0 : PyState (gmap (gss_name_t * bytes) (list bytes * bool)) :=
  mk_PyState ∅ ∅.

End Reference.

(** ** A native library that never ends an attribute

    As the test double, but [gss_get_name_attribute] always succeeds and
    always reports that more values remain. *)
Module Endless.

#[global] Instance native : GssNative nat := {|
  gss_wrap_aead := gss_wrap_aead (GssNative := Double.native);
  gss_unwrap_aead := gss_unwrap_aead (GssNative := Double.native);
  gss_add_cred_with_password :=
    gss_add_cred_with_password (GssNative := Double.native);
  gss_display_name_ext := gss_display_name_ext (GssNative := Double.native);
  gss_inquire_name := gss_inquire_name (GssNative := Double.native);
  gss_set_name_attribute :=
    gss_set_name_attribute (GssNative := Double.native);
  gss_get_name_attribute name attr value display more w :=
    (S w, Double.ok,
     mk_get_attr_out 1 0 (buffer_of_bytes Double.v1)
       (buffer_of_bytes Double.d1) 1);
  gss_delete_name_attribute :=
    gss_delete_name_attribute (GssNative := Double.native);
  gss_export_name_composite :=
    gss_export_name_composite (GssNative := Double.native);
  gss_set_cred_option := gss_set_cred_option (GssNative := Double.native);
  gss_release_buffer := gss_release_buffer (GssNative := Double.native);
  gss_release_buffer_set :=
    gss_release_buffer_set (GssNative := Double.native)
|}.

End Endless.

(** ** A native library outside the contract on output buffers

    As the test double, but [gss_get_name_attribute] succeeds with one
    value that has no display form (the display buffer stays empty), and
    [gss_wrap_aead] on the null context fails after it has allocated its
    output. *)
Module Lax.

#[global] Instance native : GssNative nat := {|
  gss_wrap_aead ctx conf_req qop assoc payload w :=
    if ctx =? 0 then
      (S w, (Double.GSS_S_NO_CONTEXT, 1),
       (0, buffer_of_bytes (char_slice payload)))
    else (S w, Double.ok, (conf_req, buffer_of_bytes (char_slice payload)));
  gss_unwrap_aead := gss_unwrap_aead (GssNative := Double.native);
  gss_add_cred_with_password :=
    gss_add_cred_with_password (GssNative := Double.native);
  gss_display_name_ext := gss_display_name_ext (GssNative := Double.native);
  gss_inquire_name := gss_inquire_name (GssNative := Double.native);
  gss_set_name_attribute :=
    gss_set_name_attribute (GssNative := Double.native);
  gss_get_name_attribute name attr value display more w :=
    (S w, Double.ok,
     mk_get_attr_out 1 1 (buffer_of_bytes Double.v1) GSS_C_EMPTY_BUFFER 0);
  gss_delete_name_attribute :=
    gss_delete_name_attribute (GssNative := Double.native);
  gss_export_name_composite :=
    gss_export_name_composite (GssNative := Double.native);
  gss_set_cred_option := gss_set_cred_option (GssNative := Double.native);
  gss_release_buffer := gss_release_buffer (GssNative := Double.native);
  gss_release_buffer_set :=
    gss_release_buffer_set (GssNative := Double.native)
|}.

End Lax.

(** ** Laws of a native library used as hypotheses *)

(** Unwrapping, with the same associated data, the bytes that a
    successful wrap produced succeeds and gives back the payload bytes. *)
Definition aead_round_trip_law {W} (N : GssNative W) : Prop :=
  ∀ ctx conf_req qop assoc payload w w',
    let wrapped := gss_wrap_aead ctx conf_req qop assoc payload w in
    succeeded wrapped.1.2 = true →
    let unwrapped :=
      gss_unwrap_aead ctx (buffer_of_bytes (char_slice wrapped.2.2)) assoc w' in
    succeeded unwrapped.1.2 = true
    ∧ char_slice unwrapped.2.1.1 = char_slice payload.

(** [gss_get_name_attribute] always succeeds and never clears the
    continuation flag. *)
Definition never_exhausted {W} (N : GssNative W) : Prop :=
  ∀ name attr value display more w,
    let r := gss_get_name_attribute name attr value display more w in
    succeeded r.1.2 = true ∧ ga_more r.2 ≠ 0.

(** The flag [set_name_attribute] passes with the [k]-th value (counted
    from 1) when the counter held [i] on entry. *)
Definition complete_flag_at (complete : bool) (value_len i : Z) (k : nat) : Z :=
  if (i + Z.of_nat k) mod size_t_modulus =? value_len then Z.b2z complete
  else 0.

(** Whether one of the first [n] calls of [set_name_attribute] carries a
    completeness flag other than 0, when the counter held [i] on entry. *)
Definition marked_complete (complete : bool) (value_len i : Z) (n : nat)
    : bool :=
  existsb (λ k, bint (complete_flag_at complete value_len i k)) (seq 1 n).

(** The value buffer of a [gss_set_name_attribute] call. *)
Definition set_call_value (c : NativeCall) : option gss_buffer_desc :=
  match c with
  | Call_set_name_attribute _ _ _ value => Some value
  | _ => None
  end.

(** The wrappers that make one native call and no other. *)
Definition single_call (op : Operation) : bool :=
  match op with
  | Op_wrap_aead _ _ _ _ _ | Op_unwrap_aead _ _ _
  | Op_display_name_ext _ _ | Op_inquire_name _ _ _
  | Op_delete_name_attribute _ _ | Op_export_name_composite _
  | Op_set_cred_option _ _ _ => true
  | _ => false
  end.

(** Whether the integer arguments of an invocation convert to their C
    types: all do but a [qop] of [wrap_aead] outside [gss_qop_t]. *)
Definition arguments_convert (op : Operation) : bool :=
  match op with
  | Op_wrap_aead _ _ _ _ qop =>
      match qop_req_of qop with Some _ => true | None => false end
  | _ => true
  end.

(** The wrappers that handle [Creds] objects. *)
Definition handles_creds (op : Operation) : bool :=
  match op with
  | Op_add_cred_with_password _ _ _ _ _ _ _ | Op_set_cred_option _ _ _ => true
  | _ => false
  end.

Definition is_NewCreds (e : Event) : bool :=
  match e with
  | NewCreds _ => true
  | _ => false
  end.

(** * Properties *)

(** Unfolding of the monad's operations in a goal. *)
Ltac mred :=
  unfold mbind, M_bind, bind, mret, M_ret, ret, raise, out_of_fuel,
    native_call, copy_out, copy_out_set, release_buffer, release_buffer_set,
    new_Creds, get_raw_creds, set_raw_creds, not_None;
  repeat first [progress cbn [world creds_heap fst snd] | progress (cbv beta iota zeta)].

Section Monad_facts.
Context {W : Type} {N : GssNative W}.

Lemma bind_unfold {A B} (m : M W A) (k : A → M W B) st :
  (m ≫= k) st =
  match m st with
  | (Ok a, st1, t1) =>
      match k a st1 with
      | (o, st2, t2) => (o, st2, t1 ++ t2)
      end
  | (Raise e, st1, t1) => (Raise e, st1, t1)
  | (OutOfFuel, st1, t1) => (OutOfFuel, st1, t1)
  end.
Proof. reflexivity. Qed.

End Monad_facts.

Section Trace_facts.

Lemma native_calls_app t1 t2 :
  native_calls (t1 ++ t2) = native_calls t1 ++ native_calls t2.
Proof. apply omap_app. Qed.

Lemma statuses_app t1 t2 : statuses (t1 ++ t2) = statuses t1 ++ statuses t2.
Proof. apply omap_app. Qed.

Lemma native_calls_Native c s o t :
  native_calls (Native c s o :: t) = c :: native_calls t.
Proof. reflexivity. Qed.

Lemma statuses_Native c s o t :
  statuses (Native c s o :: t) = s :: statuses t.
Proof. reflexivity. Qed.

End Trace_facts.

Section Set_name_attribute.
Context {W : Type} {N : GssNative W}.

Lemma expected_set_calls_cons name complete ab val rest :
  expected_set_calls name complete ab (val :: rest) =
  Call_set_name_attribute name (if decide (rest = []) then Z.b2z complete else 0)
    ab (buffer_of_bytes val)
  :: expected_set_calls name complete ab rest.
Proof. destruct rest; reflexivity. Qed.

Lemma set_name_attribute_loop_step name complete ab value_len i val rest st :
  set_name_attribute_loop name complete ab value_len i (val :: rest) st =
  let i' := (i + 1) mod size_t_modulus in
  let flag := if i' =? value_len then Z.b2z complete else 0 in
  let c := Call_set_name_attribute name flag ab (buffer_of_bytes val) in
  match gss_set_name_attribute name flag ab (buffer_of_bytes val) (world st) with
  | (w', (maj_stat, min_stat), _) =>
      let ev := Native c (maj_stat, min_stat) Out_none in
      if maj_stat =? GSS_S_COMPLETE then
        match set_name_attribute_loop name complete ab value_len i' rest
                (mk_PyState w' (creds_heap st)) with
        | (o, st2, t2) => (o, st2, ev :: t2)
        end
      else (Raise (GSSError maj_stat min_stat), mk_PyState w' (creds_heap st),
            [ev])
  end.
Proof.
  cbn [set_name_attribute_loop]. rewrite bind_unfold.
  destruct ((i + 1) mod size_t_modulus =? value_len); cbn zeta;
    unfold native_call;
    destruct (gss_set_name_attribute _ _ _ _ _) as [[w' [maj_stat min_stat]] u];
    cbv beta iota; destruct (maj_stat =? GSS_S_COMPLETE); reflexivity.
Qed.

Lemma set_name_attribute_loop_spec name complete ab value_len :
  ∀ value i st,
    0 ≤ i → i + len value = value_len → value_len < size_t_modulus →
    let r := set_name_attribute_loop name complete ab value_len i value st in
    ∃ k : nat,
      (k ≤ length value)%nat
      ∧ native_calls r.2 = take k (expected_set_calls name complete ab value)
      ∧ length (statuses r.2) = k
      ∧ match r.1.1 with
        | Ok _ =>
            k = length value ∧ Forall (λ s, succeeded s = true) (statuses r.2)
        | Raise e =>
            ∃ pre s, statuses r.2 = pre ++ [s]
                     ∧ Forall (λ s, succeeded s = true) pre
                     ∧ succeeded s = false
                     ∧ e = GSSError (fst s) (snd s)
        | OutOfFuel => False
        end.
Proof.
  induction value as [|val rest IH]; intros i st Hi Hlen Hmax.
  - exists 0%nat. simpl. repeat split; auto.
  - unfold len in Hlen. rewrite length_cons in Hlen.
    assert (Hmod : (i + 1) mod size_t_modulus = i + 1)
      by (apply Z.mod_small; lia).
    assert (Hlast : (i + 1 =? value_len)
                    = if decide (rest = []) then true else false).
    { destruct rest; simpl in *.
      - apply Z.eqb_eq. lia.
      - apply Z.eqb_neq. lia. }
    rewrite set_name_attribute_loop_step, expected_set_calls_cons.
    cbn zeta. rewrite Hmod, Hlast.
    set (flag := if (if decide (rest = []) then true else false)
                 then Z.b2z complete else 0).
    assert (Hflag : (if decide (rest = []) then Z.b2z complete else 0) = flag)
      by (subst flag; destruct (decide (rest = [])); reflexivity).
    rewrite Hflag.
    destruct (gss_set_name_attribute _ _ _ _ _) as [[w' [maj_stat min_stat]] u].
    destruct (maj_stat =? GSS_S_COMPLETE) eqn:Hs.
    + specialize (IH (i + 1) (mk_PyState w' (creds_heap st))).
      destruct (set_name_attribute_loop _ _ _ _ _ rest _) as [[o st2] t2].
      destruct IH as (k & Hk & Hcalls & Hsts & Hout); [lia | unfold len; lia | lia |].
      cbn [fst snd] in *.
      exists (S k). rewrite native_calls_Native, statuses_Native.
      rewrite Hcalls. cbn [length take]. rewrite Hsts.
      repeat split; [lia|].
      destruct o as [[]|e|].
      * destruct Hout as [-> Hall]. split; [done|]. constructor; [exact Hs | exact Hall].
      * destruct Hout as (pre & s' & Hpre & Hall & Hfail & ->).
        exists ((maj_stat, min_stat) :: pre), s'. rewrite Hpre. repeat split; auto.
      * done.
    + exists 1%nat. cbn [fst snd]. rewrite native_calls_Native, statuses_Native.
      cbn [native_calls statuses omap length take].
      repeat split; [lia|].
      exists [], (maj_stat, min_stat). repeat split; auto.
Qed.

Lemma expected_set_calls_length name complete ab value :
  length (expected_set_calls name complete ab value) = length value.
Proof.
  induction value as [|v rest IH]; [reflexivity|].
  rewrite expected_set_calls_cons. simpl. by rewrite IH.
Qed.

End Set_name_attribute.

Section Set_any_counter.
Context {W : Type} {N : GssNative W}.

Lemma complete_flag_at_next complete value_len i k :
  complete_flag_at complete value_len ((i + 1) mod size_t_modulus) k
  = complete_flag_at complete value_len i (S k).
Proof.
  unfold complete_flag_at. rewrite Zplus_mod_idemp_l.
  replace (i + 1 + Z.of_nat k) with (i + Z.of_nat (S k)) by lia. done.
Qed.

Lemma set_name_attribute_loop_any_counter name complete ab value_len :
  ∀ value i st,
    let r := set_name_attribute_loop name complete ab value_len i value st in
    let sent :=
      imap (λ j val,
              Call_set_name_attribute name
                (complete_flag_at complete value_len i (S j)) ab
                (buffer_of_bytes val)) value in
    native_calls r.2 = take (length (native_calls r.2)) sent
    ∧ (length (native_calls r.2) ≤ length value)%nat
    ∧ (∀ u, r.1.1 = Ok u → length (native_calls r.2) = length value).
Proof.
  induction value as [|val rest IH]; intros i st; cbn zeta.
  - cbn. done.
  - rewrite set_name_attribute_loop_step. cbn zeta.
    assert (Hflag : (if (i + 1) mod size_t_modulus =? value_len
                     then Z.b2z complete else 0)
                    = complete_flag_at complete value_len i 1)
      by (unfold complete_flag_at; by replace (i + Z.of_nat 1) with (i + 1) by lia).
    rewrite Hflag. rewrite imap_cons.
    destruct (gss_set_name_attribute _ _ _ _ _) as [[w' [maj_stat min_stat]] u].
    destruct (maj_stat =? GSS_S_COMPLETE) eqn:Hs.
    + specialize (IH ((i + 1) mod size_t_modulus) (mk_PyState w' (creds_heap st))).
      destruct (set_name_attribute_loop _ _ _ _ _ rest _) as [[o st2] t2].
      cbn [fst snd] in *. destruct IH as (Hcalls & Hle & Hok).
      rewrite native_calls_Native. cbn [length take].
      split; [|split; [simpl; lia | intros u' Hu; by rewrite (Hok u' Hu)]].
      f_equal. rewrite Hcalls at 1. f_equal.
      apply imap_ext. intros j x _. cbn. by rewrite complete_flag_at_next.
    + cbn [fst snd]. rewrite native_calls_Native.
      cbn [native_calls omap length take]. split; [done|]. split; [simpl; lia|done].
Qed.

Lemma set_name_attribute_loop_incomplete name ab value_len :
  ∀ value i st,
    let r := set_name_attribute_loop name false ab value_len i value st in
    native_calls r.2
    = take (length (native_calls r.2)) (expected_set_calls name false ab value)
    ∧ (length (native_calls r.2) ≤ length value)%nat
    ∧ (∀ u, r.1.1 = Ok u → length (native_calls r.2) = length value).
Proof.
  induction value as [|val rest IH]; intros i st; cbn zeta.
  - cbn. done.
  - rewrite set_name_attribute_loop_step, expected_set_calls_cons. cbn zeta.
    assert (Hflag : (if (i + 1) mod size_t_modulus =? value_len
                     then Z.b2z false else 0) = 0)
      by (by destruct (_ =? _)).
    assert (Hflag' : (if decide (rest = []) then Z.b2z false else 0) = 0)
      by (by destruct (decide _)).
    rewrite Hflag, Hflag'.
    destruct (gss_set_name_attribute _ _ _ _ _) as [[w' [maj_stat min_stat]] u].
    destruct (maj_stat =? GSS_S_COMPLETE) eqn:Hs.
    + specialize (IH ((i + 1) mod size_t_modulus) (mk_PyState w' (creds_heap st))).
      destruct (set_name_attribute_loop _ _ _ _ _ rest _) as [[o st2] t2].
      cbn [fst snd] in *. destruct IH as (Hcalls & Hle & Hok).
      rewrite native_calls_Native. cbn [length take].
      split; [|split; [simpl; lia | intros u' Hu; by rewrite (Hok u' Hu)]].
      f_equal. by rewrite Hcalls at 1.
    + cbn [fst snd]. rewrite native_calls_Native.
      cbn [native_calls omap length take]. split; [done|]. split; [simpl; lia|done].
Qed.

Lemma expected_set_calls_last name complete ab value :
  last (expected_set_calls name complete ab value)
  = (λ val, Call_set_name_attribute name (Z.b2z complete) ab
              (buffer_of_bytes val)) <$> last value.
Proof.
  induction value as [|val rest IH]; [done|].
  rewrite expected_set_calls_cons, !last_cons, IH.
  destruct (last rest) as [val'|] eqn:E; [done|].
  apply last_None in E as ->. done.
Qed.

(** With at most [PY_SSIZE_T_MAX] values and a counter that does not
    hold a multiple of the size of [size_t] on entry, the comparison
    [i == value_len] fails at the last value. *)
Lemma complete_flag_at_last complete value_len i n :
  Z.of_nat n = value_len → value_len ≤ PY_SSIZE_T_MAX →
  i mod size_t_modulus ≠ 0 →
  complete_flag_at complete value_len i n = 0.
Proof.
  intros Hn Hmax Hi. unfold complete_flag_at.
  destruct (Z.eqb_spec ((i + Z.of_nat n) mod size_t_modulus) value_len)
    as [E|E]; [|done].
  exfalso. revert E Hi. rewrite <- Zplus_mod_idemp_l.
  unfold size_t_modulus, PY_SSIZE_T_MAX in *.
  pose proof (Z.mod_pos_bound i (2 ^ 64) ltac:(lia)) as Hj.
  generalize dependent (i mod 2 ^ 64). intros j Hj E Hne.
  destruct (Z.lt_ge_cases (j + Z.of_nat n) (2 ^ 64)) as [Hlt|Hge].
  - rewrite Z.mod_small in E by lia. lia.
  - assert (Hm : (j + Z.of_nat n) mod 2 ^ 64 = j + Z.of_nat n - 2 ^ 64).
    { symmetry. apply (Z.mod_unique _ _ 1); lia. }
    lia.
Qed.

Lemma existsb_seq_shift (f : nat → bool) (a n : nat) :
  existsb f (seq (S a) n) = existsb (λ k, f (S k)) (seq a n).
Proof.
  revert a. induction n as [|n IH]; intros a; [done|].
  cbn [seq existsb]. by rewrite IH.
Qed.

Lemma existsb_pointwise {A} (f g : A → bool) (l : list A) :
  (∀ x, f x = g x) → existsb f l = existsb g l.
Proof. intros H. induction l as [|x l IH]; [done|]. cbn. by rewrite H, IH. Qed.

Lemma marked_complete_S complete value_len i n :
  marked_complete complete value_len i (S n)
  = bint (complete_flag_at complete value_len i 1)
    || marked_complete complete value_len ((i + 1) mod size_t_modulus) n.
Proof.
  unfold marked_complete. cbn [seq existsb]. f_equal.
  rewrite existsb_seq_shift. apply existsb_pointwise. intros k.
  by rewrite complete_flag_at_next.
Qed.

(** With at most [PY_SSIZE_T_MAX] values, one of the calls carries the
    caller's [complete] exactly when the counter held, modulo the size
    of [size_t], less than the number of values on entry. *)
Lemma marked_complete_spec complete value_len i n :
  Z.of_nat n = value_len → value_len ≤ PY_SSIZE_T_MAX →
  marked_complete complete value_len i n
  = complete && (i mod size_t_modulus <? value_len).
Proof.
  intros Hn Hmax. apply Bool.eq_iff_eq_true.
  unfold marked_complete.
  rewrite existsb_exists, andb_true_iff, Z.ltb_lt.
  unfold complete_flag_at.
  pose proof (Z.mod_pos_bound i size_t_modulus ltac:(done)) as Hj.
  split.
  - intros (k & Hin%in_seq & Hk).
    destruct (Z.eqb_spec ((i + Z.of_nat k) mod size_t_modulus) value_len)
      as [E|E]; [|discriminate].
    destruct complete; [|discriminate]. split; [done|].
    revert E. rewrite <- Zplus_mod_idemp_l.
    unfold size_t_modulus, PY_SSIZE_T_MAX in *.
    generalize dependent (i mod 2 ^ 64). intros j Hj E.
    destruct (Z.lt_ge_cases (j + Z.of_nat k) (2 ^ 64)) as [Hlt|Hge].
    + rewrite Z.mod_small in E by lia. lia.
    + assert (Hm : (j + Z.of_nat k) mod 2 ^ 64 = j + Z.of_nat k - 2 ^ 64).
      { symmetry. apply (Z.mod_unique _ _ 1); lia. }
      lia.
  - intros [-> Hlt].
    exists (Z.to_nat (value_len - i mod size_t_modulus)). split.
    + apply in_seq. lia.
    + rewrite <- Zplus_mod_idemp_l.
      replace (i mod size_t_modulus
               + Z.of_nat (Z.to_nat (value_len - i mod size_t_modulus)))
        with value_len by lia.
      rewrite Z.mod_small
        by (unfold size_t_modulus, PY_SSIZE_T_MAX in *; lia).
      by rewrite Z.eqb_refl.
Qed.

End Set_any_counter.

Section Get_name_attribute.
Context {W : Type} {N : GssNative W}.

Lemma get_name_attribute_loop_step fuel name ab v d c a more pv pd st :
  get_name_attribute_loop (S fuel) name ab v d c a more pv pd st =
  if more =? 0 then (Ok (pv, pd, a, c), st, [])
  else
    match gss_get_name_attribute name ab v d more (world st) with
    | (w1, (maj_stat, min_stat), o) =>
        if maj_stat =? GSS_S_COMPLETE then
          match gss_release_buffer (ga_value o) w1 with
          | (w2, _, v') =>
              match gss_release_buffer (ga_display_value o) w2 with
              | (w3, _, d') =>
                  match get_name_attribute_loop fuel name ab v' d'
                          (ga_complete o) (ga_authenticated o) (ga_more o)
                          (pv ++ [char_slice (ga_value o)])
                          (pd ++ [char_slice (ga_display_value o)])
                          (mk_PyState w3 (creds_heap st)) with
                  | (out, st2, t2) =>
                      (out, st2,
                       get_turn_events name ab v d more
                         (maj_stat, min_stat) o ++ t2)
                  end
              end
          end
        else
          (Raise (GSSError maj_stat min_stat), mk_PyState w1 (creds_heap st),
           [Native (Call_get_name_attribute name ab v d more)
              (maj_stat, min_stat) (Out_get_name_attribute o)])
    end.
Proof.
  cbn [get_name_attribute_loop]. destruct (more =? 0); [reflexivity|]. mred.
  destruct (gss_get_name_attribute _ _ _ _ _ _) as [[w1 [maj_stat min_stat]] o].
  mred. destruct (maj_stat =? GSS_S_COMPLETE); [|reflexivity]. mred.
  destruct (gss_release_buffer (ga_value o) w1) as [[w2 s2] v']. mred.
  destruct (gss_release_buffer (ga_display_value o) w2) as [[w3 s3] d']. mred.
  destruct (get_name_attribute_loop _ _ _ _ _ _ _ _ _ _ _) as [[out st2] t2].
  reflexivity.
Qed.

Lemma get_name_attribute_loop_O name ab v d c a more pv pd st :
  get_name_attribute_loop 0 name ab v d c a more pv pd st =
  if more =? 0 then (Ok (pv, pd, a, c), st, []) else (OutOfFuel, st, []).
Proof. cbn. destruct (more =? 0); reflexivity. Qed.

Lemma get_attr_events_turn name ab v d more s o t :
  get_attr_events (get_turn_events name ab v d more s o ++ t)
  = (more, s, o) :: get_attr_events t.
Proof. reflexivity. Qed.

Lemma native_calls_turn name ab v d more s o t :
  native_calls (get_turn_events name ab v d more s o ++ t)
  = Call_get_name_attribute name ab v d more :: native_calls t.
Proof. reflexivity. Qed.

Lemma statuses_turn name ab v d more s o t :
  statuses (get_turn_events name ab v d more s o ++ t) = s :: statuses t.
Proof. reflexivity. Qed.

(** Inversion of a loop result, keeping the events of a turn folded. *)
Lemma turn_result_inv {A} (out out' : Outcome A) (st2 st' : PyState W)
    name ab v d more s o t2 t :
  (out, st2, get_turn_events name ab v d more s o ++ t2) = (out', st', t) →
  out = out' ∧ st2 = st' ∧ t = get_turn_events name ab v d more s o ++ t2.
Proof. intros H. by inversion H. Qed.

(** What a returning loop has done. *)
Lemma get_name_attribute_loop_returns name ab :
  ∀ fuel v d c a more pv pd st pv' pd' a' c' st' t,
    get_name_attribute_loop fuel name ab v d c a more pv pd st
    = (Ok (pv', pd', a', c'), st', t) →
    let evs := get_attr_events t in
    drain_chain more evs
    ∧ length (native_calls t) = length evs
    ∧ pv' = pv ++ map (λ e, char_slice (ga_value e.2)) evs
    ∧ pd' = pd ++ map (λ e, char_slice (ga_display_value e.2)) evs
    ∧ a' = from_option (λ e, ga_authenticated e.2) a (last evs)
    ∧ c' = from_option (λ e, ga_complete e.2) c (last evs).
Proof.
  induction fuel as [|fuel IH]; intros v d c a more pv pd st pv' pd' a' c' st' t.
  - rewrite get_name_attribute_loop_O.
    destruct (more =? 0) eqn:Hm; [|discriminate].
    intros [= <- <- <- <- <- <-]. apply Z.eqb_eq in Hm. cbn.
    rewrite !app_nil_r. auto 10.
  - rewrite get_name_attribute_loop_step.
    destruct (more =? 0) eqn:Hm.
    { intros [= <- <- <- <- <- <-]. apply Z.eqb_eq in Hm. cbn.
      rewrite !app_nil_r. auto 10. }
    apply Z.eqb_neq in Hm.
    destruct (gss_get_name_attribute _ _ _ _ _ _) as [[w1 [maj_stat min_stat]] o].
    destruct (maj_stat =? GSS_S_COMPLETE) eqn:Hs; [|discriminate].
    destruct (gss_release_buffer (ga_value o) w1) as [[w2 s2] v'].
    destruct (gss_release_buffer (ga_display_value o) w2) as [[w3 s3] d'].
    destruct (get_name_attribute_loop _ _ _ _ _ _ _ _ _ _ _)
      as [[out st2] t2] eqn:Hrec.
    intros (-> & -> & ->)%turn_result_inv. apply IH in Hrec.
    destruct Hrec as (Hchain & Hlen & Hpv & Hpd & Ha & Hc).
    cbn zeta. rewrite get_attr_events_turn, native_calls_turn.
    cbn [drain_chain length map snd].
    rewrite Hlen, Hpv, Hpd, <- !app_assoc. cbn [app].
    repeat split; auto.
    + rewrite Ha, last_cons. by destruct (last (get_attr_events t2)).
    + rewrite Hc, last_cons. by destruct (last (get_attr_events t2)).
Qed.

Lemma drain_chain_stops more evs :
  drain_chain more evs →
  ∀ k e, evs !! k = Some e → (ga_more e.2 = 0 ↔ S k = length evs).
Proof.
  revert more. induction evs as [|[[m s] o] evs IH]; intros more Hc k e Hk.
  - discriminate.
  - destruct Hc as (_ & _ & _ & Hc). destruct k as [|k]; cbn in Hk.
    + injection Hk as <-. cbn [snd length].
      destruct evs as [|[[m1 s1] o1] evs]; cbn in Hc.
      * tauto.
      * destruct Hc as [Hne _]. cbn [length]. split; [tauto | lia].
    + cbn [length]. rewrite (IH _ Hc k e Hk). lia.
Qed.

(** More fuel does not change the result of a loop that ended. *)
Lemma get_name_attribute_loop_fuel_mono name ab :
  ∀ fuel fuel' v d c a more pv pd st,
    (fuel ≤ fuel')%nat →
    (get_name_attribute_loop fuel name ab v d c a more pv pd st).1.1
    ≠ OutOfFuel →
    get_name_attribute_loop fuel' name ab v d c a more pv pd st
    = get_name_attribute_loop fuel name ab v d c a more pv pd st.
Proof.
  induction fuel as [|fuel IH]; intros fuel' v d c a more pv pd st Hle.
  - rewrite get_name_attribute_loop_O. destruct fuel' as [|fuel'].
    + by rewrite get_name_attribute_loop_O.
    + rewrite get_name_attribute_loop_step.
      destruct (more =? 0); [reflexivity | done].
  - destruct fuel' as [|fuel']; [lia|].
    rewrite !get_name_attribute_loop_step.
    destruct (more =? 0); [reflexivity|].
    destruct (gss_get_name_attribute _ _ _ _ _ _) as [[w1 [maj_stat min_stat]] o].
    destruct (maj_stat =? GSS_S_COMPLETE); [|reflexivity].
    destruct (gss_release_buffer (ga_value o) w1) as [[w2 s2] v'].
    destruct (gss_release_buffer (ga_display_value o) w2) as [[w3 s3] d'].
    specialize (IH fuel' v' d' (ga_complete o) (ga_authenticated o)
                  (ga_more o) (pv ++ [char_slice (ga_value o)])
                  (pd ++ [char_slice (ga_display_value o)])
                  (mk_PyState w3 (creds_heap st)) ltac:(lia)).
    destruct (get_name_attribute_loop fuel _ _ _ _ _ _ _ _ _ _)
      as [[out st2] t2].
    intros Hout. rewrite IH by exact Hout. reflexivity.
Qed.

(** [get_name_attribute] with enough fuel: a run that ended, by a
    return or by an error, is the same with any larger fuel. *)
Lemma get_name_attribute_fuel_mono fuel fuel' name attr c a st :
  (fuel ≤ fuel')%nat →
  (get_name_attribute fuel name attr c a st).1.1 ≠ OutOfFuel →
  get_name_attribute fuel' name attr c a st
  = get_name_attribute fuel name attr c a st.
Proof.
  intros Hle. unfold get_name_attribute. mred. intros Hend.
  rewrite (get_name_attribute_loop_fuel_mono _ _ fuel fuel'); [done|done|].
  destruct (get_name_attribute_loop fuel _ _ _ _ _ _ _ _ _ _)
    as [[[?|?|] ?] ?]; done.
Qed.

End Get_name_attribute.

Section Status_discipline.
Context {W : Type} {N : GssNative W}.

Lemma native_discipline_cons {A} (o : Outcome A) s sts :
  succeeded s = true →
  native_discipline o sts → native_discipline o (s :: sts).
Proof.
  intros Hs. destruct o as [a|e|]; cbn.
  - by constructor.
  - intros (pre & s' & -> & Hpre & Hfail & ->). exists (s :: pre), s'.
    split; [done|]. split; [by constructor | done].
  - by constructor.
Qed.

Lemma native_discipline_status {A} (o : Outcome A) sts :
  native_discipline o sts → status_discipline o sts.
Proof.
  destruct o as [a|e|]; cbn; [done| |done].
  intros (pre & [maj_stat min_stat] & -> & Hpre & Hfail & ->). cbn. eauto.
Qed.

Lemma native_discipline_one_fail {A} maj_stat min_stat :
  (maj_stat =? GSS_S_COMPLETE) = false →
  native_discipline (Raise (A := A) (GSSError maj_stat min_stat))
    [(maj_stat, min_stat)].
Proof. intros H. cbn. exists [], (maj_stat, min_stat). by repeat split. Qed.

Lemma status_discipline_iff {A} (o : Outcome A) sts :
  status_discipline o sts → sts ≠ [] → o ≠ OutOfFuel →
  ((∃ a, o = Ok a) ↔ Forall (λ s, succeeded s = true) sts).
Proof.
  intros Hd Hne Hfuel. destruct o as [a|[maj_stat min_stat|msg|msg|]|]; cbn in Hd.
  - split; eauto.
  - destruct Hd as (pre & -> & Hpre & Hfail). split.
    + intros [a [=]].
    + intros [_ Hl]%Forall_app. inversion Hl; congruence.
  - done.
  - done.
  - done.
  - done.
Qed.

Lemma set_name_attribute_loop_discipline name complete ab value_len :
  ∀ value i st,
    let r := set_name_attribute_loop name complete ab value_len i value st in
    native_discipline r.1.1 (statuses r.2) ∧ r.1.1 ≠ OutOfFuel.
Proof.
  induction value as [|val rest IH]; intros i st.
  - cbn. split; [constructor | done].
  - cbn zeta. rewrite set_name_attribute_loop_step. cbn zeta.
    destruct (gss_set_name_attribute _ _ _ _ _) as [[w' [maj_stat min_stat]] u].
    destruct (maj_stat =? GSS_S_COMPLETE) eqn:Hs.
    + specialize (IH ((i + 1) mod size_t_modulus) (mk_PyState w' (creds_heap st))).
      destruct (set_name_attribute_loop _ _ _ _ _ rest _) as [[o st2] t2].
      cbn [fst snd] in *. rewrite statuses_Native. destruct IH as [IH1 IH2].
      split; [|done]. by apply native_discipline_cons.
    + cbn [fst snd]. split; [|done]. by apply native_discipline_one_fail.
Qed.

Lemma get_name_attribute_loop_discipline name ab :
  ∀ fuel v d c a more pv pd st,
    let r := get_name_attribute_loop fuel name ab v d c a more pv pd st in
    native_discipline r.1.1 (statuses r.2)
    ∧ (r.1.1 = OutOfFuel → length (statuses r.2) = fuel).
Proof.
  induction fuel as [|fuel IH]; intros v d c a more pv pd st; cbn zeta.
  - rewrite get_name_attribute_loop_O.
    destruct (more =? 0); cbn; split; (constructor || done).
  - rewrite get_name_attribute_loop_step. destruct (more =? 0).
    { cbn. split; [constructor | done]. }
    destruct (gss_get_name_attribute _ _ _ _ _ _) as [[w1 [maj_stat min_stat]] o].
    destruct (maj_stat =? GSS_S_COMPLETE) eqn:Hs.
    + destruct (gss_release_buffer (ga_value o) w1) as [[w2 s2] v'].
      destruct (gss_release_buffer (ga_display_value o) w2) as [[w3 s3] d'].
      specialize (IH v' d' (ga_complete o) (ga_authenticated o) (ga_more o)
                    (pv ++ [char_slice (ga_value o)])
                    (pd ++ [char_slice (ga_display_value o)])
                    (mk_PyState w3 (creds_heap st))).
      destruct (get_name_attribute_loop _ _ _ _ _ _ _ _ _ _ _) as [[out st2] t2].
      cbn [fst snd] in *. rewrite statuses_turn. destruct IH as [IH1 IH2].
      split; [by apply native_discipline_cons|].
      intros Ho. cbn [length]. by rewrite IH2.
    + cbn [fst snd]. split; [|done]. rewrite statuses_Native.
      by apply native_discipline_one_fail.
Qed.

End Status_discipline.

Section Runs.
Context {W : Type} {N : GssNative W}.

(** The runs of [wrap_aead]: the overflow of [qop], or one native call
    and what follows its status. *)
Lemma wrap_aead_run context message associated confidential qop st :
  wrap_aead context message associated confidential qop st =
  let conf_req := Z.b2z confidential in
  let assoc_ptr :=
    match associated with
    | Some a => Some (buffer_of_bytes a)
    | None => GSS_C_NO_BUFFER
    end in
  match qop_req_of qop with
  | None => (Raise OverflowError, st, [])
  | Some qop_req =>
      match gss_wrap_aead context conf_req qop_req assoc_ptr
              (buffer_of_bytes message) (world st) with
      | (w1, (maj_stat, min_stat), (conf_used, output_buffer)) =>
          let ev :=
            Native (Call_wrap_aead context conf_req qop_req assoc_ptr
                      (buffer_of_bytes message))
              (maj_stat, min_stat) (Out_wrap_aead conf_used output_buffer) in
          if maj_stat =? GSS_S_COMPLETE then
            match gss_release_buffer output_buffer w1 with
            | (w2, _, _) =>
                (Ok (mk_WrapResult (char_slice output_buffer) (bint conf_used)),
                 mk_PyState w2 (creds_heap st),
                 [ev; CopyOut (OutBuffer output_buffer);
                  ReleaseBuffer output_buffer])
            end
          else (Raise (GSSError maj_stat min_stat),
                mk_PyState w1 (creds_heap st), [ev])
      end
  end.
Proof.
  unfold wrap_aead. cbn zeta.
  destruct (qop_req_of qop) as [qop_req|]; [|reflexivity]. mred.
  destruct (gss_wrap_aead _ _ _ _ _ _)
    as [[w1 [maj_stat min_stat]] [conf_used output_buffer]]. mred.
  destruct (maj_stat =? GSS_S_COMPLETE); [|reflexivity]. mred.
  destruct (gss_release_buffer _ _) as [[w2 s2] b']. reflexivity.
Qed.

Lemma unwrap_aead_run context message associated st :
  unwrap_aead context message associated st =
  let assoc_ptr :=
    match associated with
    | Some a => Some (buffer_of_bytes a)
    | None => GSS_C_NO_BUFFER
    end in
  match gss_unwrap_aead context (buffer_of_bytes message) assoc_ptr
          (world st) with
  | (w1, (maj_stat, min_stat), (output_buffer, conf_state, qop_state)) =>
      let ev :=
        Native (Call_unwrap_aead context (buffer_of_bytes message) assoc_ptr)
          (maj_stat, min_stat)
          (Out_unwrap_aead output_buffer conf_state qop_state) in
      if maj_stat =? GSS_S_COMPLETE then
        match gss_release_buffer output_buffer w1 with
        | (w2, _, _) =>
            (Ok (mk_UnwrapResult (char_slice output_buffer) (bint conf_state)
                   qop_state),
             mk_PyState w2 (creds_heap st),
             [ev; CopyOut (OutBuffer output_buffer);
              ReleaseBuffer output_buffer])
        end
      else (Raise (GSSError maj_stat min_stat), mk_PyState w1 (creds_heap st),
            [ev])
  end.
Proof.
  unfold unwrap_aead. mred.
  destruct (gss_unwrap_aead _ _ _ _)
    as [[w1 [maj_stat min_stat]] [[output_buffer conf_state] qop_state]]. mred.
  destruct (maj_stat =? GSS_S_COMPLETE); [|reflexivity]. mred.
  destruct (gss_release_buffer _ _) as [[w2 s2] b']. reflexivity.
Qed.

Lemma display_name_ext_run name name_type st :
  display_name_ext name name_type st =
  match gss_display_name_ext name name_type (world st) with
  | (w1, (maj_stat, min_stat), output_name) =>
      let ev :=
        Native (Call_display_name_ext name name_type) (maj_stat, min_stat)
          (Out_buffer output_name) in
      if maj_stat =? GSS_S_COMPLETE then
        match gss_release_buffer output_name w1 with
        | (w2, _, _) =>
            (Ok (char_slice output_name), mk_PyState w2 (creds_heap st),
             [ev; CopyOut (OutBuffer output_name); ReleaseBuffer output_name])
        end
      else (Raise (GSSError maj_stat min_stat), mk_PyState w1 (creds_heap st),
            [ev])
  end.
Proof.
  unfold display_name_ext. mred.
  destruct (gss_display_name_ext _ _ _) as [[w1 [maj_stat min_stat]] b]. mred.
  destruct (maj_stat =? GSS_S_COMPLETE); [|reflexivity]. mred.
  destruct (gss_release_buffer _ _) as [[w2 s2] b']. reflexivity.
Qed.

Lemma export_name_composite_run name st :
  export_name_composite name st =
  match gss_export_name_composite name (world st) with
  | (w1, (maj_stat, min_stat), res) =>
      let ev :=
        Native (Call_export_name_composite name) (maj_stat, min_stat)
          (Out_buffer res) in
      if maj_stat =? GSS_S_COMPLETE then
        match gss_release_buffer res w1 with
        | (w2, _, _) =>
            (Ok (char_slice res), mk_PyState w2 (creds_heap st),
             [ev; CopyOut (OutBuffer res); ReleaseBuffer res])
        end
      else (Raise (GSSError maj_stat min_stat), mk_PyState w1 (creds_heap st),
            [ev])
  end.
Proof.
  unfold export_name_composite. mred.
  destruct (gss_export_name_composite _ _) as [[w1 [maj_stat min_stat]] b]. mred.
  destruct (maj_stat =? GSS_S_COMPLETE); [|reflexivity]. mred.
  destruct (gss_release_buffer _ _) as [[w2 s2] b']. reflexivity.
Qed.

Lemma delete_name_attribute_run name attr st :
  delete_name_attribute name attr st =
  match gss_delete_name_attribute name (buffer_of_bytes attr) (world st) with
  | (w1, (maj_stat, min_stat), _) =>
      let ev :=
        Native (Call_delete_name_attribute name (buffer_of_bytes attr))
          (maj_stat, min_stat) Out_none in
      if maj_stat =? GSS_S_COMPLETE then
        (Ok tt, mk_PyState w1 (creds_heap st), [ev])
      else (Raise (GSSError maj_stat min_stat), mk_PyState w1 (creds_heap st),
            [ev])
  end.
Proof.
  unfold delete_name_attribute. mred.
  destruct (gss_delete_name_attribute _ _ _) as [[w1 [maj_stat min_stat]] u]. mred.
  destruct (maj_stat =? GSS_S_COMPLETE); reflexivity.
Qed.

Lemma inquire_name_run name mech_name attrs st :
  inquire_name name mech_name attrs st =
  match gss_inquire_name name mech_name mech_name attrs (world st) with
  | (w1, (maj_stat, min_stat), o) =>
      let locals := inquire_name_locals mech_name mech_name attrs o in
      let ev :=
        Native (Call_inquire_name name mech_name mech_name attrs)
          (maj_stat, min_stat) (Out_inquire_name locals) in
      let py_mech :=
        if bint (in_name_is_mn locals)
        then Some (default [] (in_mech_type locals)) else None in
      if maj_stat =? GSS_S_COMPLETE then
        match in_attrs locals with
        | Some elements =>
            match gss_release_buffer_set (Some elements) w1 with
            | (w2, _, _) =>
                (Ok (mk_InquireNameResult (map char_slice elements)
                       (bint (in_name_is_mn locals)) py_mech),
                 mk_PyState w2 (creds_heap st),
                 [ev; CopyOut (OutBufferSet (Some elements));
                  ReleaseBufferSet (Some elements)])
            end
        | None =>
            (Ok (mk_InquireNameResult [] (bint (in_name_is_mn locals)) py_mech),
             mk_PyState w1 (creds_heap st), [ev])
        end
      else (Raise (GSSError maj_stat min_stat), mk_PyState w1 (creds_heap st),
            [ev])
  end.
Proof.
  unfold inquire_name. mred.
  destruct (gss_inquire_name _ _ _ _ _) as [[w1 [maj_stat min_stat]] o]. mred.
  destruct (maj_stat =? GSS_S_COMPLETE); [|reflexivity]. mred.
  destruct (in_attrs (inquire_name_locals mech_name mech_name attrs o))
    as [elements|] eqn:Hattrs; mred; [|reflexivity].
  destruct (gss_release_buffer_set _ _) as [[w2 s2] b']. reflexivity.
Qed.

Lemma set_cred_option_run desired_aspect creds value st :
  set_cred_option desired_aspect creds value st =
  let value_buffer :=
    match value with
    | Some v => buffer_of_bytes v
    | None => mk_gss_buffer_desc 0 None
    end in
  let fresh_creds := fresh (dom (creds_heap st)) in
  let output_creds := match creds with Some c => c | None => fresh_creds end in
  let heap1 :=
    match creds with
    | Some _ => creds_heap st
    | None => <[fresh_creds := GSS_C_NO_CREDENTIAL]> (creds_heap st)
    end in
  let alloc := match creds with Some _ => [] | None => [NewCreds fresh_creds] end in
  let raw := default GSS_C_NO_CREDENTIAL (heap1 !! output_creds) in
  match gss_set_cred_option raw desired_aspect value_buffer (world st) with
  | (w1, (maj_stat, min_stat), raw') =>
      let ev :=
        Native (Call_set_cred_option raw desired_aspect value_buffer)
          (maj_stat, min_stat) (Out_cred raw') in
      let st' := mk_PyState w1 (<[output_creds := raw']> heap1) in
      if maj_stat =? GSS_S_COMPLETE then (Ok output_creds, st', alloc ++ [ev])
      else (Raise (GSSError maj_stat min_stat), st', alloc ++ [ev])
  end.
Proof.
  unfold set_cred_option. destruct creds as [c|]; mred.
  - destruct (gss_set_cred_option _ _ _ _) as [[w1 [maj_stat min_stat]] raw'].
    mred. destruct (maj_stat =? GSS_S_COMPLETE); reflexivity.
  - destruct (gss_set_cred_option _ _ _ _) as [[w1 [maj_stat min_stat]] raw'].
    mred. destruct (maj_stat =? GSS_S_COMPLETE); reflexivity.
Qed.

Lemma add_cred_with_password_None_run name mech password usage il al st :
  add_cred_with_password None name mech password usage il al st =
  (Raise (TypeError "Argument 'input_cred' must not be None"), st, []).
Proof. reflexivity. Qed.

Lemma add_cred_with_password_run c name mech password usage il al st :
  add_cred_with_password (Some c) name mech password usage il al st =
  match
    (if String.eqb usage "initiate" then Some GSS_C_INITIATE
     else if String.eqb usage "accept" then Some GSS_C_ACCEPT
     else if String.eqb usage "both" then Some GSS_C_BOTH
     else None)
  with
  | None => (Raise (ValueError (invalid_usage_message usage)), st, [])
  | Some c_usage =>
      let raw := default GSS_C_NO_CREDENTIAL (creds_heap st !! c) in
      let call :=
        Call_add_cred_with_password raw name mech (buffer_of_bytes password)
          c_usage (c_py_ttl_to_c il) (c_py_ttl_to_c al) in
      match gss_add_cred_with_password raw name mech (buffer_of_bytes password)
              c_usage (c_py_ttl_to_c il) (c_py_ttl_to_c al) (world st) with
      | (w1, (maj_stat, min_stat), o) =>
          let ev := Native call (maj_stat, min_stat) (Out_add_cred o) in
          if maj_stat =? GSS_S_COMPLETE then
            let rc := fresh (dom (creds_heap st)) in
            (Ok (mk_AddCredResult rc (c_create_oid_set (ac_actual_mechs o))
                   (c_c_ttl_to_py (ac_actual_init_ttl o))
                   (c_c_ttl_to_py (ac_actual_accept_ttl o))),
             mk_PyState w1
               (<[rc := ac_output_creds o]>
                  (<[rc := GSS_C_NO_CREDENTIAL]> (creds_heap st))),
             [ev; NewCreds rc])
          else
            (Raise (GSSError maj_stat min_stat), mk_PyState w1 (creds_heap st),
             [ev])
      end
  end.
Proof.
  unfold add_cred_with_password. mred.
  destruct (String.eqb usage "initiate");
    [|destruct (String.eqb usage "accept");
      [|destruct (String.eqb usage "both"); [|reflexivity]]];
    mred;
    destruct (gss_add_cred_with_password _ _ _ _ _ _ _ _)
      as [[w1 [maj_stat min_stat]] o]; mred;
    destruct (maj_stat =? GSS_S_COMPLETE); reflexivity.
Qed.

End Runs.

Section Family.
Context {W : Type} {N : GssNative W}.

Lemma run_then_ret {A B} (m : M W A) (f : A → B) st :
  (m ≫= λ a, ret (f a)) st =
  match m st with
  | (Ok a, st1, t1) => (Ok (f a), st1, t1)
  | (Raise e, st1, t1) => (Raise e, st1, t1)
  | (OutOfFuel, st1, t1) => (OutOfFuel, st1, t1)
  end.
Proof.
  mred. destruct (m st) as [[[a|e|] st1] t1]; try reflexivity.
  by rewrite app_nil_r.
Qed.

Lemma run_then_const {A B} (m : M W A) (b : B) st :
  (m ≫= λ _, ret b) st =
  match m st with
  | (Ok _, st1, t1) => (Ok b, st1, t1)
  | (Raise e, st1, t1) => (Raise e, st1, t1)
  | (OutOfFuel, st1, t1) => (OutOfFuel, st1, t1)
  end.
Proof. exact (run_then_ret m (λ _, b) st). Qed.

Lemma get_name_attribute_discipline fuel name attr c a st :
  let r := get_name_attribute fuel name attr c a st in
  native_discipline r.1.1 (statuses r.2)
  ∧ (r.1.1 = OutOfFuel → length (statuses r.2) = fuel).
Proof.
  unfold get_name_attribute. mred.
  pose proof (get_name_attribute_loop_discipline name (buffer_of_bytes attr)
                fuel (mk_gss_buffer_desc 0 None) (mk_gss_buffer_desc 0 None)
                c a (-1) [] [] st) as H. cbn zeta in H.
  destruct (get_name_attribute_loop _ _ _ _ _ _ _ _ _ _ _)
    as [[[[[[pv pd] a'] c']|e|] st2] t2]; cbn [fst snd] in *;
    rewrite ?app_nil_r; destruct H as [H1 H2]; (split; [exact H1 | first [done | intros _; by apply H2]]).
Qed.

End Family.


Section Release_discipline.
Context {W : Type} {N : GssNative W}.

Lemma take_out_head o l : take_out o (o :: l) = Some l.
Proof. cbn. by rewrite decide_True. Qed.

Lemma lifecycle_Native c s o owed copied t :
  lifecycle owed copied (Native c s o :: t)
  = lifecycle (owed ++ List.filter populated_param (out_buffers o)) copied t.
Proof. reflexivity. Qed.

Lemma lifecycle_CopyOut o owed copied t :
  lifecycle (o :: owed) copied (CopyOut o :: t)
  = lifecycle owed (copied ++ [o]) t.
Proof. cbn [lifecycle]. by rewrite take_out_head. Qed.

Lemma lifecycle_ReleaseBuffer b owed copied t :
  lifecycle owed (OutBuffer b :: copied) (ReleaseBuffer b :: t)
  = lifecycle owed copied t.
Proof. cbn [lifecycle]. by rewrite take_out_head. Qed.

Lemma lifecycle_ReleaseBufferSet s owed copied t :
  lifecycle owed (OutBufferSet s :: copied) (ReleaseBufferSet s :: t)
  = lifecycle owed copied t.
Proof. cbn [lifecycle]. by rewrite take_out_head. Qed.

Lemma lifecycle_turn name ab v d more s o t :
  populated_param (OutBuffer (ga_value o)) = true →
  populated_param (OutBuffer (ga_display_value o)) = true →
  lifecycle [] [] (get_turn_events name ab v d more s o ++ t)
  = lifecycle [] [] t.
Proof.
  intros Hv Hd. unfold get_turn_events.
  cbn [app]. rewrite lifecycle_Native. cbn [out_buffers List.filter].
  rewrite Hv, Hd. cbn [app].
  rewrite !lifecycle_CopyOut. cbn [app]. by rewrite !lifecycle_ReleaseBuffer.
Qed.

Lemma released_turn name ab v d more s o t :
  released (get_turn_events name ab v d more s o ++ t)
  = OutBuffer (ga_value o) :: OutBuffer (ga_display_value o) :: released t.
Proof. reflexivity. Qed.

Lemma populated_turn name ab v d more s o t :
  populated_param (OutBuffer (ga_value o)) = true →
  populated_param (OutBuffer (ga_display_value o)) = true →
  populated (get_turn_events name ab v d more s o ++ t)
  = OutBuffer (ga_value o) :: OutBuffer (ga_display_value o) :: populated t.
Proof.
  intros Hv Hd. cbn -[populated_param]. by rewrite Hv, Hd.
Qed.

Lemma set_name_attribute_loop_buffers name complete ab value_len :
  ∀ value i st,
    let t := (set_name_attribute_loop name complete ab value_len i value st).2 in
    lifecycle [] [] t = Some ([], []) ∧ released t = [] ∧ populated t = [].
Proof.
  induction value as [|val rest IH]; intros i st; [done|].
  cbn zeta. rewrite set_name_attribute_loop_step. cbn zeta.
  destruct (gss_set_name_attribute _ _ _ _ _) as [[w' [maj_stat min_stat]] u].
  destruct (maj_stat =? GSS_S_COMPLETE); [|done].
  specialize (IH ((i + 1) mod size_t_modulus) (mk_PyState w' (creds_heap st))).
  destruct (set_name_attribute_loop _ _ _ _ _ rest _) as [[o st2] t2].
  exact IH.
Qed.

Lemma get_name_attribute_loop_buffers (Hc : native_contract N) name ab :
  ∀ fuel v d c a more pv pd st,
    let t := (get_name_attribute_loop fuel name ab v d c a more pv pd st).2 in
    lifecycle [] [] t = Some ([], []) ∧ released t = populated t.
Proof.
  induction fuel as [|fuel IH]; intros v d c a more pv pd st; cbn zeta.
  - rewrite get_name_attribute_loop_O. by destruct (more =? 0).
  - rewrite get_name_attribute_loop_step. destruct (more =? 0); [done|].
    pose proof (get_name_attribute_contract N Hc name ab v d more (world st))
      as [Hv Hd].
    destruct (gss_get_name_attribute _ _ _ _ _ _) as [[w1 [maj_stat min_stat]] o].
    unfold succeeded in Hv, Hd. cbn [fst snd] in Hv, Hd.
    destruct (maj_stat =? GSS_S_COMPLETE) eqn:Hs.
    + destruct (gss_release_buffer (ga_value o) w1) as [[w2 s2] v'].
      destruct (gss_release_buffer (ga_display_value o) w2) as [[w3 s3] d'].
      specialize (IH v' d' (ga_complete o) (ga_authenticated o) (ga_more o)
                    (pv ++ [char_slice (ga_value o)])
                    (pd ++ [char_slice (ga_display_value o)])
                    (mk_PyState w3 (creds_heap st))).
      destruct (get_name_attribute_loop _ _ _ _ _ _ _ _ _ _ _) as [[out st2] t2].
      cbn [fst snd] in *. destruct IH as [IH1 IH2].
      rewrite lifecycle_turn, released_turn, populated_turn by done.
      by rewrite IH2.
    + cbn [fst snd app released populated flat_map].
      rewrite lifecycle_Native. cbn [out_buffers List.filter].
      by rewrite Hv, Hd.
Qed.

Lemma get_name_attribute_buffers (Hc : native_contract N) fuel name attr c a st :
  let t := (get_name_attribute fuel name attr c a st).2 in
  lifecycle [] [] t = Some ([], []) ∧ released t = populated t.
Proof.
  unfold get_name_attribute. mred.
  pose proof (get_name_attribute_loop_buffers Hc name (buffer_of_bytes attr)
                fuel (mk_gss_buffer_desc 0 None) (mk_gss_buffer_desc 0 None)
                c a (-1) [] [] st) as H. cbn zeta in H.
  destruct (get_name_attribute_loop _ _ _ _ _ _ _ _ _ _ _)
    as [[[[[[pv pd] a'] c']|e|] st2] t2]; cbn [fst snd] in *;
    rewrite ?app_nil_r; exact H.
Qed.

End Release_discipline.

Lemma Double_contract : native_contract Double.native.
Proof.
  split; intros; cbn.
  - by destruct (ctx =? 0), a.
  - by destruct (ctx =? 0).
  - by destruct (n =? 0).
  - by destruct (n =? 0).
  - destruct (n =? 0); [done|]. by destruct (m <? 0).
  - revert H. cbn. by destruct (n =? 0).
Qed.


Section Released_after_success.
Context {W : Type} {N : GssNative W}.

Lemma handed_over_turn name ab v d more maj_stat min_stat o t :
  (maj_stat =? GSS_S_COMPLETE) = true →
  handed_over (get_turn_events name ab v d more (maj_stat, min_stat) o ++ t)
  = OutBuffer (ga_value o) :: OutBuffer (ga_display_value o) :: handed_over t.
Proof. intros Hs. cbn. unfold succeeded. cbn. by rewrite Hs. Qed.

Lemma get_name_attribute_loop_released name ab :
  ∀ fuel v d c a more pv pd st,
    let t := (get_name_attribute_loop fuel name ab v d c a more pv pd st).2 in
    released t = handed_over t.
Proof.
  induction fuel as [|fuel IH]; intros v d c a more pv pd st; cbn zeta.
  - rewrite get_name_attribute_loop_O. by destruct (more =? 0).
  - rewrite get_name_attribute_loop_step. destruct (more =? 0); [done|].
    destruct (gss_get_name_attribute _ _ _ _ _ _) as [[w1 [maj_stat min_stat]] o].
    destruct (maj_stat =? GSS_S_COMPLETE) eqn:Hs.
    + destruct (gss_release_buffer (ga_value o) w1) as [[w2 s2] v'].
      destruct (gss_release_buffer (ga_display_value o) w2) as [[w3 s3] d'].
      specialize (IH v' d' (ga_complete o) (ga_authenticated o) (ga_more o)
                    (pv ++ [char_slice (ga_value o)])
                    (pd ++ [char_slice (ga_display_value o)])
                    (mk_PyState w3 (creds_heap st))).
      destruct (get_name_attribute_loop _ _ _ _ _ _ _ _ _ _ _) as [[out st2] t2].
      cbn [fst snd] in *. rewrite released_turn, handed_over_turn by done.
      by rewrite IH.
    + cbn. unfold succeeded. cbn. by rewrite Hs.
Qed.

Lemma set_name_attribute_loop_handed_over name complete ab value_len :
  ∀ value i st,
    handed_over
      (set_name_attribute_loop name complete ab value_len i value st).2 = [].
Proof.
  induction value as [|val rest IH]; intros i st; [done|].
  rewrite set_name_attribute_loop_step. cbn zeta.
  destruct (gss_set_name_attribute _ _ _ _ _) as [[w' [maj_stat min_stat]] u].
  destruct (maj_stat =? GSS_S_COMPLETE) eqn:Hs.
  - specialize (IH ((i + 1) mod size_t_modulus) (mk_PyState w' (creds_heap st))).
    destruct (set_name_attribute_loop _ _ _ _ _ rest _) as [[o st2] t2].
    cbn [fst snd] in *. cbn. unfold succeeded. cbn. by rewrite Hs.
  - cbn. unfold succeeded. cbn. by rewrite Hs.
Qed.

End Released_after_success.

Ltac released_leaf Hs :=
  cbn; unfold succeeded; cbn; rewrite ?Hs; done.

(** With no assumption on the native library: on every path of every
    wrapper the release calls are, in order, the output buffers of the
    native calls that reported success (a buffer set left as the
    empty-set sentinel apart); nothing is released for a call that
    failed. *)
Lemma released_after_success {W} {N : GssNative W}
    (fuel : nat) (op : Operation) (st : PyState W) :
  released (run_op fuel op st).2 = handed_over (run_op fuel op st).2.
Proof.
  destruct op; cbn [run_op];
    first [rewrite run_then_ret | rewrite run_then_const].
  - rewrite wrap_aead_run. cbn zeta.
    destruct (qop_req_of _) as [qop_req|]; [|reflexivity].
    destruct (gss_wrap_aead _ _ _ _ _ _) as [[w1 [maj_stat min_stat]] [cu ob]].
    destruct (maj_stat =? GSS_S_COMPLETE) eqn:Hs;
      [destruct (gss_release_buffer _ _) as [[w2 s2] b']|]; released_leaf Hs.
  - rewrite unwrap_aead_run. cbn zeta.
    destruct (gss_unwrap_aead _ _ _ _) as [[w1 [maj_stat min_stat]] [[ob cs] qs]].
    destruct (maj_stat =? GSS_S_COMPLETE) eqn:Hs;
      [destruct (gss_release_buffer _ _) as [[w2 s2] b']|]; released_leaf Hs.
  - destruct input_cred as [c|]; [|done].
    rewrite add_cred_with_password_run.
    destruct (if String.eqb usage "initiate" then _ else _) as [c_usage|];
      [|done].
    cbn zeta.
    destruct (gss_add_cred_with_password _ _ _ _ _ _ _ _)
      as [[w1 [maj_stat min_stat]] o].
    destruct (maj_stat =? GSS_S_COMPLETE) eqn:Hs; released_leaf Hs.
  - rewrite display_name_ext_run.
    destruct (gss_display_name_ext _ _ _) as [[w1 [maj_stat min_stat]] b].
    cbn zeta. destruct (maj_stat =? GSS_S_COMPLETE) eqn:Hs;
      [destruct (gss_release_buffer _ _) as [[w2 s2] b']|]; released_leaf Hs.
  - rewrite inquire_name_run.
    destruct (gss_inquire_name _ _ _ _ _) as [[w1 [maj_stat min_stat]] o].
    cbn zeta. destruct (maj_stat =? GSS_S_COMPLETE) eqn:Hs.
    + destruct (in_attrs (inquire_name_locals _ _ _ _)) as [elements|] eqn:Ha.
      * destruct (gss_release_buffer_set _ _) as [[w2 s2] b'].
        cbn [fst snd released handed_over flat_map out_buffers app].
        rewrite Ha. unfold succeeded. cbn. by rewrite Hs.
      * cbn [fst snd released handed_over flat_map out_buffers app].
        rewrite Ha. unfold succeeded. cbn. by rewrite Hs.
    + released_leaf Hs.
  - pose proof (set_name_attribute_loop_buffers name complete
                  (buffer_of_bytes attr) (len value) value i st) as H.
    pose proof (set_name_attribute_loop_handed_over name complete
                  (buffer_of_bytes attr) (len value) value i st) as H'.
    cbn zeta in H.
    fold (set_name_attribute name attr value complete i st) in H, H'.
    destruct (set_name_attribute name attr value complete i st)
      as [[[u|e|] st1] t1]; cbn [fst snd] in *;
      destruct H as (_ & -> & _); by rewrite H'.
  - unfold get_name_attribute. mred.
    pose proof (get_name_attribute_loop_released name (buffer_of_bytes attr)
                  fuel (mk_gss_buffer_desc 0 None) (mk_gss_buffer_desc 0 None)
                  complete authenticated (-1) [] [] st) as H. cbn zeta in H.
    destruct (get_name_attribute_loop _ _ _ _ _ _ _ _ _ _ _)
      as [[[[[[pv pd] a'] c']|e|] st2] t2]; cbn [fst snd] in *;
      rewrite ?app_nil_r; exact H.
  - rewrite delete_name_attribute_run.
    destruct (gss_delete_name_attribute _ _ _) as [[w1 [maj_stat min_stat]] u].
    cbn zeta. destruct (maj_stat =? GSS_S_COMPLETE) eqn:Hs; released_leaf Hs.
  - rewrite export_name_composite_run.
    destruct (gss_export_name_composite _ _) as [[w1 [maj_stat min_stat]] b].
    cbn zeta. destruct (maj_stat =? GSS_S_COMPLETE) eqn:Hs;
      [destruct (gss_release_buffer _ _) as [[w2 s2] b']|]; released_leaf Hs.
  - rewrite set_cred_option_run. destruct creds as [c|]; cbn zeta;
      destruct (gss_set_cred_option _ _ _ _) as [[w1 [maj_stat min_stat]] raw'];
      destruct (maj_stat =? GSS_S_COMPLETE) eqn:Hs; released_leaf Hs.
Qed.

Section Usage.

Lemma usage_chain_invalid (usage : string) :
  usage ≠ "initiate"%string → usage ≠ "accept"%string → usage ≠ "both"%string →
  (if String.eqb usage "initiate" then Some GSS_C_INITIATE
   else if String.eqb usage "accept" then Some GSS_C_ACCEPT
   else if String.eqb usage "both" then Some GSS_C_BOTH
   else None) = None.
Proof.
  intros H1 H2 H3.
  destruct (String.eqb_spec usage "initiate"); [done|].
  destruct (String.eqb_spec usage "accept"); [done|].
  by destruct (String.eqb_spec usage "both").
Qed.

Lemma usage_chain_valid (usage : string) (u : gss_cred_usage_t) :
  (usage, u) ∈ usage_table →
  (if String.eqb usage "initiate" then Some GSS_C_INITIATE
   else if String.eqb usage "accept" then Some GSS_C_ACCEPT
   else if String.eqb usage "both" then Some GSS_C_BOTH
   else None) = Some u.
Proof.
  unfold usage_table. rewrite !elem_of_cons, elem_of_nil.
  intros [[= -> ->]|[[= -> ->]|[[= -> ->]|[]]]]; reflexivity.
Qed.

End Usage.

(** C10.  Called with an empty value sequence, [set_name_attribute]
    returns normally: it makes no native call at all (so nothing is
    marked complete), raises nothing and leaves the state as it was,
    whatever the other arguments and whatever the counter holds. *)
Theorem set_name_attribute_empty_value {W} {N : GssNative W}
    (name : gss_name_t) (attr : bytes) (complete : bool) (i : Z)
    (st : PyState W) :
  set_name_attribute name attr [] complete i st = (Ok tt, st, []).
Proof.
  unfold set_name_attribute. cbn [set_name_attribute_loop]. reflexivity.
Qed.

(** C1.  The claim does not hold of the code: the counter [i] that
    picks the last value is declared and never initialised, so the
    comparison [i == value_len] depends on what the local holds on
    entry.  With a non-empty sequence of at most [PY_SSIZE_T_MAX] values,
    [complete=True] and a counter that does not hold a multiple of the
    size of [size_t] (zero, in a [size_t]), whenever the wrapper returns,
    its final native call carries the completeness flag 0 where the
    multi-value protocol asks for the caller's [complete]; the calls
    made are not the calls of the protocol. *)
Theorem set_name_attribute_complete_lost {W} {N : GssNative W}
    (name : gss_name_t) (attr : bytes) (value : list bytes) (i : Z)
    (st : PyState W) :
  value ≠ [] →
  len value ≤ PY_SSIZE_T_MAX →
  i mod size_t_modulus ≠ 0 →
  let r := set_name_attribute name attr value true i st in
  let expected := expected_set_calls name true (buffer_of_bytes attr) value in
  r.1.1 = Ok tt →
  ∃ val,
    last value = Some val
    ∧ last (native_calls r.2)
      = Some (Call_set_name_attribute name 0 (buffer_of_bytes attr)
                (buffer_of_bytes val))
    ∧ last expected
      = Some (Call_set_name_attribute name 1 (buffer_of_bytes attr)
                (buffer_of_bytes val))
    ∧ native_calls r.2 ≠ expected.
Proof.
  intros Hne Hmax Hi r expected Hok.
  destruct (set_name_attribute_loop_any_counter name true
              (buffer_of_bytes attr) (len value) value i st)
    as (Hcalls & Hle & Hall).
  fold (set_name_attribute name attr value true i st) in Hcalls, Hle, Hall.
  fold r in Hcalls, Hle, Hall. specialize (Hall tt Hok).
  rewrite Hall, firstn_all2 in Hcalls by (by rewrite length_imap).
  destruct (last value) as [val|] eqn:Hlast;
    [|by apply last_None in Hlast].
  assert (Hsent : last (native_calls r.2)
                  = Some (Call_set_name_attribute name 0 (buffer_of_bytes attr)
                            (buffer_of_bytes val))).
  { rewrite Hcalls, last_lookup, list_lookup_imap, length_imap.
    rewrite <- last_lookup, Hlast. cbn [fmap option_fmap option_map].
    do 2 f_equal.
    assert (Hn : S (Init.Nat.pred (length value)) = length value)
      by (destruct value; [done|simpl; lia]).
    rewrite Hn. by apply complete_flag_at_last. }
  assert (Hexp : last expected
                 = Some (Call_set_name_attribute name 1 (buffer_of_bytes attr)
                           (buffer_of_bytes val))).
  { unfold expected. by rewrite expected_set_calls_last, Hlast. }
  exists val. split; [done|]. split; [done|]. split; [done|].
  intros Heq. rewrite Heq, Hexp in Hsent. discriminate.
Qed.

(** The run of [set_name_attribute(name, b"k", [b"v1", b"v2"],
    complete=True)] on the test double with the counter holding 7 on
    entry: it returns after two calls that both carry the flag 0, where
    the protocol has the flags 0 and 1. *)
Lemma set_name_attribute_complete_lost_witness :
  let r := set_name_attribute (N := Double.native) 5 Double.key
             [Double.v1; Double.v2] true 7 Double.st0 in
  r.1.1 = Ok tt
  ∧ native_calls r.2
    = [Call_set_name_attribute 5 0 (buffer_of_bytes Double.key)
         (buffer_of_bytes Double.v1);
       Call_set_name_attribute 5 0 (buffer_of_bytes Double.key)
         (buffer_of_bytes Double.v2)]
  ∧ expected_set_calls 5 true (buffer_of_bytes Double.key)
      [Double.v1; Double.v2]
    = [Call_set_name_attribute 5 0 (buffer_of_bytes Double.key)
         (buffer_of_bytes Double.v1);
       Call_set_name_attribute 5 1 (buffer_of_bytes Double.key)
         (buffer_of_bytes Double.v2)]
  ∧ ∃ val,
      last (native_calls r.2)
      = Some (Call_set_name_attribute 5 0 (buffer_of_bytes Double.key)
                (buffer_of_bytes val)).
Proof.
  cbn zeta. split; [reflexivity|]. split; [reflexivity|].
  split; [reflexivity|].
  destruct (set_name_attribute_complete_lost (N := Double.native) 5 Double.key
              [Double.v1; Double.v2] 7 Double.st0)
    as (val & _ & Hlast & _).
  - discriminate.
  - vm_compute; discriminate.
  - vm_compute; discriminate.
  - reflexivity.
  - exists val. exact Hlast.
Defined.

(** Were the counter to hold zero on entry, the calls made would be the
    first k of the N calls of the multi-value protocol (one per value,
    in order, the completeness flag 0 on all but the last value and the
    caller's [complete] on the last), for some k between 1 and N: all N
    when the wrapper returns, and up to the call that failed when it
    raises. *)
Lemma set_name_attribute_protocol {W} {N : GssNative W}
    (name : gss_name_t) (attr : bytes) (value : list bytes) (complete : bool)
    (st : PyState W) :
  value ≠ [] →
  len value ≤ PY_SSIZE_T_MAX →
  let r := set_name_attribute name attr value complete 0 st in
  let expected :=
    expected_set_calls name complete (buffer_of_bytes attr) value in
  ∃ k : nat,
    (1 ≤ k ≤ length value)%nat
    ∧ native_calls r.2 = take k expected
    ∧ length (statuses r.2) = k
    ∧ match r.1.1 with
      | Ok _ =>
          native_calls r.2 = expected
          ∧ length (native_calls r.2) = length value
          ∧ Forall (λ s, succeeded s = true) (statuses r.2)
      | Raise e =>
          ∃ pre s, statuses r.2 = pre ++ [s]
                   ∧ Forall (λ s, succeeded s = true) pre
                   ∧ succeeded s = false
                   ∧ e = GSSError (fst s) (snd s)
      | OutOfFuel => False
      end
    ∧ (Forall (λ s, succeeded s = true) (statuses r.2) →
       r.1.1 = Ok tt ∧ native_calls r.2 = expected).
Proof.
  intros Hne Hmax r expected.
  destruct (set_name_attribute_loop_spec name complete (buffer_of_bytes attr)
              (len value) value 0 st) as (k & Hk & Hcalls & Hsts & Hout).
  { lia. } { lia. } { unfold PY_SSIZE_T_MAX, size_t_modulus in *. lia. }
  fold (set_name_attribute name attr value complete 0 st) in Hcalls, Hsts, Hout.
  fold r in Hcalls, Hsts, Hout. fold expected in Hcalls.
  assert (Hlen : length expected = length value)
    by apply expected_set_calls_length.
  assert (Hwhole : k = length value → native_calls r.2 = expected).
  { intros ->. rewrite Hcalls, <- Hlen. apply firstn_all. }
  exists k. destruct (r.1.1) as [[]|e|] eqn:Ho.
  - destruct Hout as [-> Hall]. clear Ho.
    assert (length value ≠ 0)%nat by (destruct value; simpl; congruence).
    split; [lia|]. split; [done|]. split; [done|]. split.
    + split; [auto|]. split; [|done]. rewrite Hwhole by done. exact Hlen.
    + auto.
  - destruct Hout as (pre & s & Hpre & Hall & Hfail & ->).
    assert (1 ≤ k)%nat.
    { rewrite <- Hsts, Hpre, length_app. simpl. lia. }
    split; [lia|]. split; [done|]. split; [done|]. split.
    + exists pre, s. auto.
    + intros HF. exfalso. rewrite Hpre in HF.
      apply Forall_app in HF as [_ HF]. inversion HF; congruence.
  - done.
Qed.

(** The same slip with a single value: when the counter holds 1 on
    entry, the value is sent with the completeness flag 0 although
    [complete=True]. *)
Example set_name_attribute_stale_counter :
  native_calls
    (set_name_attribute (N := Double.native) 5 Double.key [Double.v1] true 1
       Double.st0).2
  = [Call_set_name_attribute 5 0 (buffer_of_bytes Double.key)
       (buffer_of_bytes Double.v1)].
Proof. reflexivity. Qed.

(** C2.  When [get_name_attribute] returns, it has made at least one
    native get-attribute call (the continuation flag starts as -1), every
    native call it made is such a call and succeeded, the first received
    the flag -1 and each later one the flag its predecessor returned, the
    flag returned is zero on the last call and on no earlier one, the raw
    and display values returned are those of the calls in order, and the
    authenticated and complete flags are those the last call set. *)
Theorem get_name_attribute_drains {W} {N : GssNative W}
    (fuel : nat) (name : gss_name_t) (attr : bytes)
    (complete authenticated : Z) (st st' : PyState W)
    (r : GetNameAttributeResult) (t : list Event) :
  get_name_attribute fuel name attr complete authenticated st = (Ok r, st', t) →
  let evs := get_attr_events t in
  (1 ≤ length evs)%nat
  ∧ length (native_calls t) = length evs
  ∧ drain_chain (-1) evs
  ∧ (∀ k e, evs !! k = Some e → (ga_more e.2 = 0 ↔ S k = length evs))
  ∧ get_values r = map (λ e, char_slice (ga_value e.2)) evs
  ∧ get_display_values r = map (λ e, char_slice (ga_display_value e.2)) evs
  ∧ ∃ e, last evs = Some e
         ∧ get_authenticated r = bint (ga_authenticated e.2)
         ∧ get_complete r = bint (ga_complete e.2).
Proof.
  unfold get_name_attribute. mred.
  destruct (get_name_attribute_loop _ _ _ _ _ _ _ _ _ _ _)
    as [[[[[[pv pd] a] c]|e|] st2] t2] eqn:Hloop; try discriminate.
  intros [= <- <- <-]. rewrite app_nil_r.
  apply get_name_attribute_loop_returns in Hloop.
  destruct Hloop as (Hchain & Hlen & -> & -> & -> & ->).
  cbn zeta. cbn [get_values get_display_values get_authenticated get_complete app].
  assert (Hne : (1 ≤ length (get_attr_events t2))%nat).
  { destruct (get_attr_events t2); [cbn in Hchain; discriminate | simpl; lia]. }
  split; [exact Hne|]. split; [exact Hlen|]. split; [exact Hchain|].
  split; [exact (drain_chain_stops _ _ Hchain)|]. split; [done|]. split; [done|].
  destruct (last (get_attr_events t2)) as [e|] eqn:Hlast.
  - exists e. auto.
  - apply last_None in Hlast. rewrite Hlast in Hne. simpl in Hne. lia.
Qed.

Lemma get_name_attribute_drains_witness :
  ∃ st' t,
    get_name_attribute (N := Double.native) 5 5 Double.key 0 0 Double.st0
    = (Ok (mk_GetNameAttributeResult [Double.v1; Double.v2]
             [Double.d1; Double.d2] true true), st', t)
    ∧ (1 ≤ length (get_attr_events t))%nat
    ∧ drain_chain (-1) (get_attr_events t).
Proof.
  assert (H : ∃ st' t,
    get_name_attribute (N := Double.native) 5 5 Double.key 0 0 Double.st0
    = (Ok (mk_GetNameAttributeResult [Double.v1; Double.v2]
             [Double.d1; Double.d2] true true), st', t))
    by (eexists _, _; vm_compute; reflexivity).
  destruct H as (st' & t & H). exists st', t. split; [exact H|].
  destruct (get_name_attribute_drains _ _ _ _ _ _ _ _ _ H) as (H1 & _ & H3 & _).
  split; [exact H1 | exact H3].
Defined.

Ltac discipline_leaf :=
  cbn [fst snd statuses omap app status_discipline];
  split;
  [ first [ by repeat constructor
          | by (exists []; repeat split)
          | reflexivity ]
  | discriminate ].

(** C3.  For every wrapper and every native call it issues (the calls of
    the operations' entry points; the release calls return a status the
    wrappers never read): the wrapper returns only if every call it
    issued reported success; a call that reports failure is the last
    call issued, and the wrapper raises one error that carries the major
    and minor codes of that call as they are; an exception of the
    binding itself (an argument check) is raised before any native call;
    and, when at least one call was issued, the wrapper returns if and
    only if every call succeeded.  The outcome is a result or an error,
    never both.  (Running out of fuel only arises in the loop of
    [get_name_attribute], after as many successful calls as there was
    fuel.) *)
Theorem status_checked {W} {N : GssNative W}
    (fuel : nat) (op : Operation) (st : PyState W) :
  let r := run_op fuel op st in
  status_discipline r.1.1 (statuses r.2)
  ∧ (r.1.1 = OutOfFuel →
     is_get_name_attribute op = true ∧ length (statuses r.2) = fuel)
  ∧ (statuses r.2 ≠ [] → r.1.1 ≠ OutOfFuel →
     ((∃ a, r.1.1 = Ok a) ↔ Forall (λ s, succeeded s = true) (statuses r.2))).
Proof.
  cbn zeta.
  assert (H : status_discipline (run_op fuel op st).1.1
                (statuses (run_op fuel op st).2)
              ∧ ((run_op fuel op st).1.1 = OutOfFuel →
                 is_get_name_attribute op = true
                 ∧ length (statuses (run_op fuel op st).2) = fuel)).
  2: { destruct H as [H1 H2]. split; [done|]. split; [done|].
       by apply status_discipline_iff. }
  destruct op; cbn [run_op is_get_name_attribute];
    first [rewrite run_then_ret | rewrite run_then_const].
  - rewrite wrap_aead_run. cbn zeta.
    destruct (qop_req_of _) as [qop_req|]; [|discipline_leaf].
    destruct (gss_wrap_aead _ _ _ _ _ _) as [[w1 [maj_stat min_stat]] [cu ob]].
    destruct (maj_stat =? GSS_S_COMPLETE) eqn:Hs;
      [destruct (gss_release_buffer _ _) as [[w2 s2] b']|]; discipline_leaf.
  - rewrite unwrap_aead_run. cbn zeta.
    destruct (gss_unwrap_aead _ _ _ _) as [[w1 [maj_stat min_stat]] [[ob cs] qs]].
    destruct (maj_stat =? GSS_S_COMPLETE) eqn:Hs;
      [destruct (gss_release_buffer _ _) as [[w2 s2] b']|]; discipline_leaf.
  - destruct input_cred as [c|]; [|discipline_leaf].
    rewrite add_cred_with_password_run.
    destruct (if String.eqb usage "initiate" then _ else _) as [c_usage|];
      [|discipline_leaf].
    cbn zeta.
    destruct (gss_add_cred_with_password _ _ _ _ _ _ _ _)
      as [[w1 [maj_stat min_stat]] o].
    destruct (maj_stat =? GSS_S_COMPLETE) eqn:Hs; discipline_leaf.
  - rewrite display_name_ext_run.
    destruct (gss_display_name_ext _ _ _) as [[w1 [maj_stat min_stat]] b].
    cbn zeta. destruct (maj_stat =? GSS_S_COMPLETE) eqn:Hs;
      [destruct (gss_release_buffer _ _) as [[w2 s2] b']|]; discipline_leaf.
  - rewrite inquire_name_run.
    destruct (gss_inquire_name _ _ _ _ _) as [[w1 [maj_stat min_stat]] o].
    cbn zeta. destruct (maj_stat =? GSS_S_COMPLETE) eqn:Hs;
      [destruct (in_attrs _);
       [destruct (gss_release_buffer_set _ _) as [[w2 s2] b']|]|];
      discipline_leaf.
  - pose proof (set_name_attribute_loop_discipline name complete
                  (buffer_of_bytes attr) (len value) value i st) as [H1 H2].
    fold (set_name_attribute name attr value complete i st) in H1, H2.
    destruct (set_name_attribute name attr value complete i st)
      as [[[u|e|] st1] t1]; cbn [fst snd] in *;
      (split; [by apply native_discipline_status | done]).
  - pose proof (get_name_attribute_discipline fuel name attr complete
                  authenticated st) as [H1 H2].
    destruct (get_name_attribute fuel name attr complete authenticated st)
      as [[[u|e|] st1] t1]; cbn [fst snd] in *;
      (split; [by apply native_discipline_status
              | first [discriminate | intros _; split; [done | by apply H2]]]).
  - rewrite delete_name_attribute_run.
    destruct (gss_delete_name_attribute _ _ _) as [[w1 [maj_stat min_stat]] u].
    cbn zeta. destruct (maj_stat =? GSS_S_COMPLETE) eqn:Hs; discipline_leaf.
  - rewrite export_name_composite_run.
    destruct (gss_export_name_composite _ _) as [[w1 [maj_stat min_stat]] b].
    cbn zeta. destruct (maj_stat =? GSS_S_COMPLETE) eqn:Hs;
      [destruct (gss_release_buffer _ _) as [[w2 s2] b']|]; discipline_leaf.
  - rewrite set_cred_option_run. destruct creds as [c|]; cbn zeta;
      destruct (gss_set_cred_option _ _ _ _) as [[w1 [maj_stat min_stat]] raw'];
      destruct (maj_stat =? GSS_S_COMPLETE) eqn:Hs; discipline_leaf.
Qed.

Ltac buffers_leaf :=
  cbn [fst snd app released populated flat_map];
  rewrite ?lifecycle_Native;
  cbn [out_buffers List.filter];
  repeat match goal with
         | H : populated_param _ = _ |- _ => rewrite H
         end;
  cbn [app];
  rewrite ?lifecycle_CopyOut; cbn [app];
  rewrite ?lifecycle_ReleaseBuffer, ?lifecycle_ReleaseBufferSet;
  done.

(** Over a native library that hands an output buffer to its caller
    exactly when the call reports success, the output buffers populated
    are the ones released: every one of them is copied and then
    released once, and nothing else is released. *)
Lemma released_populated_under_contract {W} {N : GssNative W}
    (Hc : native_contract N) (fuel : nat) (op : Operation) (st : PyState W) :
  let t := (run_op fuel op st).2 in
  lifecycle [] [] t = Some ([], [])
  ∧ released t = populated t
  ∧ length (released t) = length (populated t).
Proof.
  cbn zeta.
  assert (H : lifecycle [] [] (run_op fuel op st).2 = Some ([], [])
              ∧ released (run_op fuel op st).2 = populated (run_op fuel op st).2).
  2: { destruct H as [H1 H2]. by rewrite H2. }
  destruct op; cbn [run_op];
    first [rewrite run_then_ret | rewrite run_then_const].
  - rewrite wrap_aead_run. cbn zeta.
    destruct (qop_req_of _) as [qop_req|]; [|done].
    match goal with
    | |- context [gss_wrap_aead ?a ?b ?c ?d ?e ?w] =>
        pose proof (wrap_aead_contract N Hc a b c d e w) as Hp
    end.
    destruct (gss_wrap_aead _ _ _ _ _ _) as [[w1 [maj_stat min_stat]] [cu ob]].
    unfold succeeded in Hp. cbn [fst snd] in Hp.
    destruct (maj_stat =? GSS_S_COMPLETE) eqn:Hs;
      [destruct (gss_release_buffer _ _) as [[w2 s2] b']|]; buffers_leaf.
  - rewrite unwrap_aead_run. cbn zeta.
    match goal with
    | |- context [gss_unwrap_aead ?a ?b ?c ?w] =>
        pose proof (unwrap_aead_contract N Hc a b c w) as Hp
    end.
    destruct (gss_unwrap_aead _ _ _ _) as [[w1 [maj_stat min_stat]] [[ob cs] qs]].
    unfold succeeded in Hp. cbn [fst snd] in Hp.
    destruct (maj_stat =? GSS_S_COMPLETE) eqn:Hs;
      [destruct (gss_release_buffer _ _) as [[w2 s2] b']|]; buffers_leaf.
  - destruct input_cred as [c|]; [|done].
    rewrite add_cred_with_password_run.
    destruct (if String.eqb usage "initiate" then _ else _) as [c_usage|];
      [|done].
    cbn zeta.
    destruct (gss_add_cred_with_password _ _ _ _ _ _ _ _)
      as [[w1 [maj_stat min_stat]] o].
    by destruct (maj_stat =? GSS_S_COMPLETE).
  - rewrite display_name_ext_run.
    pose proof (display_name_ext_contract N Hc name name_type (world st)) as Hp.
    destruct (gss_display_name_ext _ _ _) as [[w1 [maj_stat min_stat]] b].
    unfold succeeded in Hp. cbn [fst snd] in Hp.
    cbn zeta. destruct (maj_stat =? GSS_S_COMPLETE) eqn:Hs;
      [destruct (gss_release_buffer _ _) as [[w2 s2] b']|]; buffers_leaf.
  - rewrite inquire_name_run.
    pose proof (inquire_name_contract N Hc name mech_name mech_name attrs
                  (world st)) as Hp.
    destruct (gss_inquire_name _ _ _ _ _) as [[w1 [maj_stat min_stat]] o].
    unfold succeeded in Hp. cbn [fst snd] in Hp.
    cbn zeta. destruct (maj_stat =? GSS_S_COMPLETE) eqn:Hs.
    + destruct (in_attrs (inquire_name_locals _ _ _ _)) as [elements|] eqn:Ha.
      * destruct (gss_release_buffer_set _ _) as [[w2 s2] b'].
        cbn [fst snd app released populated flat_map].
        rewrite lifecycle_Native. cbn [out_buffers].
        rewrite Ha. cbn [List.filter populated_param app].
        rewrite lifecycle_CopyOut. cbn [app].
        by rewrite lifecycle_ReleaseBufferSet.
      * cbn [fst snd app released populated flat_map].
        rewrite lifecycle_Native. cbn [out_buffers].
        by rewrite Ha.
    + specialize (Hp eq_refl).
      cbn [fst snd app released populated flat_map].
      rewrite lifecycle_Native.
      cbn [out_buffers inquire_name_locals in_attrs].
      rewrite Hp. unfold store. by destruct attrs.
  - pose proof (set_name_attribute_loop_buffers name complete
                  (buffer_of_bytes attr) (len value) value i st) as H.
    cbn zeta in H.
    fold (set_name_attribute name attr value complete i st) in H.
    destruct (set_name_attribute name attr value complete i st)
      as [[[u|e|] st1] t1]; cbn [fst snd] in *;
      destruct H as (H1 & -> & ->); done.
  - pose proof (get_name_attribute_buffers Hc fuel name attr complete
                  authenticated st) as H. cbn zeta in H.
    destruct (get_name_attribute fuel name attr complete authenticated st)
      as [[[u|e|] st1] t1]; exact H.
  - rewrite delete_name_attribute_run.
    destruct (gss_delete_name_attribute _ _ _) as [[w1 [maj_stat min_stat]] u].
    cbn zeta. by destruct (maj_stat =? GSS_S_COMPLETE).
  - rewrite export_name_composite_run.
    pose proof (export_name_composite_contract N Hc name (world st)) as Hp.
    destruct (gss_export_name_composite _ _) as [[w1 [maj_stat min_stat]] b].
    unfold succeeded in Hp. cbn [fst snd] in Hp.
    cbn zeta. destruct (maj_stat =? GSS_S_COMPLETE) eqn:Hs;
      [destruct (gss_release_buffer _ _) as [[w2 s2] b']|]; buffers_leaf.
  - rewrite set_cred_option_run. destruct creds as [c|]; cbn zeta;
      destruct (gss_set_cred_option _ _ _ _) as [[w1 [maj_stat min_stat]] raw'];
      by destruct (maj_stat =? GSS_S_COMPLETE).
Qed.

Section Custody.
Context {W : Type} {N : GssNative W}.

Lemma custody_Native c s o owed copied t :
  custody owed copied (Native c s o :: t)
  = custody
      (owed ++ if succeeded s then
                 List.filter
                   (λ p, match p with
                         | OutBufferSet None => false
                         | _ => true
                         end) (out_buffers o)
               else []) copied t.
Proof. reflexivity. Qed.

Lemma custody_CopyOut o owed copied t :
  custody (o :: owed) copied (CopyOut o :: t)
  = custody owed (copied ++ [o]) t.
Proof. cbn [custody]. by rewrite take_out_head. Qed.

Lemma custody_ReleaseBuffer b owed copied t :
  custody owed (OutBuffer b :: copied) (ReleaseBuffer b :: t)
  = custody owed copied t.
Proof. cbn [custody]. by rewrite take_out_head. Qed.

Lemma custody_ReleaseBufferSet s owed copied t :
  custody owed (OutBufferSet s :: copied) (ReleaseBufferSet s :: t)
  = custody owed copied t.
Proof. cbn [custody]. by rewrite take_out_head. Qed.

Lemma custody_NewCreds r owed copied t :
  custody owed copied (NewCreds r :: t) = custody owed copied t.
Proof. reflexivity. Qed.

Lemma custody_turn name ab v d more s o t :
  succeeded s = true →
  custody [] [] (get_turn_events name ab v d more s o ++ t)
  = custody [] [] t.
Proof.
  intros Hs. unfold get_turn_events.
  cbn [app]. rewrite custody_Native, Hs. cbn [out_buffers List.filter app].
  rewrite !custody_CopyOut. cbn [app]. by rewrite !custody_ReleaseBuffer.
Qed.

Lemma set_name_attribute_loop_custody name complete ab value_len :
  ∀ value i st,
    custody [] []
      (set_name_attribute_loop name complete ab value_len i value st).2
    = Some ([], []).
Proof.
  induction value as [|val rest IH]; intros i st; [done|].
  rewrite set_name_attribute_loop_step. cbn zeta.
  destruct (gss_set_name_attribute _ _ _ _ _) as [[w' [maj_stat min_stat]] u].
  destruct (maj_stat =? GSS_S_COMPLETE) eqn:Hs.
  - specialize (IH ((i + 1) mod size_t_modulus) (mk_PyState w' (creds_heap st))).
    destruct (set_name_attribute_loop _ _ _ _ _ rest _) as [[o st2] t2].
    cbn [fst snd] in *. rewrite custody_Native. unfold succeeded. cbn [fst].
    rewrite Hs. exact IH.
  - cbn [fst snd]. rewrite custody_Native. unfold succeeded. cbn [fst].
    by rewrite Hs.
Qed.

Lemma get_name_attribute_loop_custody name ab :
  ∀ fuel v d c a more pv pd st,
    custody [] []
      (get_name_attribute_loop fuel name ab v d c a more pv pd st).2
    = Some ([], []).
Proof.
  induction fuel as [|fuel IH]; intros v d c a more pv pd st.
  - rewrite get_name_attribute_loop_O. by destruct (more =? 0).
  - rewrite get_name_attribute_loop_step. destruct (more =? 0); [done|].
    destruct (gss_get_name_attribute _ _ _ _ _ _) as [[w1 [maj_stat min_stat]] o].
    destruct (maj_stat =? GSS_S_COMPLETE) eqn:Hs.
    + destruct (gss_release_buffer (ga_value o) w1) as [[w2 s2] v'].
      destruct (gss_release_buffer (ga_display_value o) w2) as [[w3 s3] d'].
      specialize (IH v' d' (ga_complete o) (ga_authenticated o) (ga_more o)
                    (pv ++ [char_slice (ga_value o)])
                    (pd ++ [char_slice (ga_display_value o)])
                    (mk_PyState w3 (creds_heap st))).
      destruct (get_name_attribute_loop _ _ _ _ _ _ _ _ _ _ _) as [[out st2] t2].
      cbn [fst snd] in *. by rewrite custody_turn.
    + cbn [fst snd]. rewrite custody_Native. unfold succeeded. cbn [fst].
      by rewrite Hs.
Qed.

End Custody.

Ltac custody_leaf Hs :=
  cbn [fst snd app]; rewrite ?custody_NewCreds, ?custody_Native;
  unfold succeeded; cbn [fst snd];
  rewrite ?Hs; cbn [out_buffers List.filter app];
  rewrite ?custody_CopyOut; cbn [app];
  rewrite ?custody_ReleaseBuffer, ?custody_ReleaseBufferSet; done.

(** With no assumption on the native library, the release calls of every
    wrapper settle the custody of the output buffers of the successful
    calls. *)
Lemma custody_settled {W} {N : GssNative W}
    (fuel : nat) (op : Operation) (st : PyState W) :
  custody [] [] (run_op fuel op st).2 = Some ([], []).
Proof.
  destruct op; cbn [run_op];
    first [rewrite run_then_ret | rewrite run_then_const].
  - rewrite wrap_aead_run. cbn zeta.
    destruct (qop_req_of _) as [qop_req|]; [|reflexivity].
    destruct (gss_wrap_aead _ _ _ _ _ _) as [[w1 [maj_stat min_stat]] [cu ob]].
    destruct (maj_stat =? GSS_S_COMPLETE) eqn:Hs;
      [destruct (gss_release_buffer _ _) as [[w2 s2] b']|]; custody_leaf Hs.
  - rewrite unwrap_aead_run. cbn zeta.
    destruct (gss_unwrap_aead _ _ _ _) as [[w1 [maj_stat min_stat]] [[ob cs] qs]].
    destruct (maj_stat =? GSS_S_COMPLETE) eqn:Hs;
      [destruct (gss_release_buffer _ _) as [[w2 s2] b']|]; custody_leaf Hs.
  - destruct input_cred as [c|]; [|done].
    rewrite add_cred_with_password_run.
    destruct (if String.eqb usage "initiate" then _ else _) as [c_usage|];
      [|done].
    cbn zeta.
    destruct (gss_add_cred_with_password _ _ _ _ _ _ _ _)
      as [[w1 [maj_stat min_stat]] o].
    destruct (maj_stat =? GSS_S_COMPLETE) eqn:Hs; custody_leaf Hs.
  - rewrite display_name_ext_run.
    destruct (gss_display_name_ext _ _ _) as [[w1 [maj_stat min_stat]] b].
    cbn zeta. destruct (maj_stat =? GSS_S_COMPLETE) eqn:Hs;
      [destruct (gss_release_buffer _ _) as [[w2 s2] b']|]; custody_leaf Hs.
  - rewrite inquire_name_run.
    destruct (gss_inquire_name _ _ _ _ _) as [[w1 [maj_stat min_stat]] o].
    cbn zeta. destruct (maj_stat =? GSS_S_COMPLETE) eqn:Hs.
    + destruct (in_attrs (inquire_name_locals _ _ _ _)) as [elements|] eqn:Ha.
      * destruct (gss_release_buffer_set _ _) as [[w2 s2] b'].
        cbn [fst snd]. rewrite custody_Native. unfold succeeded. cbn [fst].
        rewrite Hs. cbn [out_buffers]. rewrite Ha. cbn [List.filter app].
        rewrite custody_CopyOut. cbn [app].
        by rewrite custody_ReleaseBufferSet.
      * cbn [fst snd]. rewrite custody_Native. unfold succeeded. cbn [fst].
        rewrite Hs. cbn [out_buffers]. by rewrite Ha.
    + custody_leaf Hs.
  - pose proof (set_name_attribute_loop_custody name complete
                  (buffer_of_bytes attr) (len value) value i st) as H.
    fold (set_name_attribute name attr value complete i st) in H.
    destruct (set_name_attribute name attr value complete i st)
      as [[[u|e|] st1] t1]; exact H.
  - unfold get_name_attribute. mred.
    pose proof (get_name_attribute_loop_custody name (buffer_of_bytes attr)
                  fuel (mk_gss_buffer_desc 0 None) (mk_gss_buffer_desc 0 None)
                  complete authenticated (-1) [] [] st) as H.
    destruct (get_name_attribute_loop _ _ _ _ _ _ _ _ _ _ _)
      as [[[[[[pv pd] a'] c']|e|] st2] t2]; cbn [fst snd] in *;
      rewrite ?app_nil_r; exact H.
  - rewrite delete_name_attribute_run.
    destruct (gss_delete_name_attribute _ _ _) as [[w1 [maj_stat min_stat]] u].
    cbn zeta. destruct (maj_stat =? GSS_S_COMPLETE) eqn:Hs; custody_leaf Hs.
  - rewrite export_name_composite_run.
    destruct (gss_export_name_composite _ _) as [[w1 [maj_stat min_stat]] b].
    cbn zeta. destruct (maj_stat =? GSS_S_COMPLETE) eqn:Hs;
      [destruct (gss_release_buffer _ _) as [[w2 s2] b']|]; custody_leaf Hs.
  - rewrite set_cred_option_run. destruct creds as [c|]; cbn zeta;
      destruct (gss_set_cred_option _ _ _ _) as [[w1 [maj_stat min_stat]] raw'];
      destruct (maj_stat =? GSS_S_COMPLETE) eqn:Hs; custody_leaf Hs.
Qed.

(** C4, as amended.  For every wrapper and on every path (return, error,
    or the loop still running), with no assumption on the native
    library: the output buffers of the native calls that reported
    success (an attribute-name set left as the empty-set sentinel
    apart) are each copied and then released, once; nothing else is
    released, so the output buffers of a call that failed are never
    released, whatever the call left in them; and the release calls are,
    in order and in number, those buffers.  Over a native library that
    populates its output buffers exactly when it reports success, they
    are the populated buffers. *)
Theorem buffers_released_by_status {W} {N : GssNative W}
    (fuel : nat) (op : Operation) (st : PyState W) :
  let t := (run_op fuel op st).2 in
  custody [] [] t = Some ([], [])
  ∧ released t = handed_over t
  ∧ length (released t) = length (handed_over t)
  ∧ (native_contract N →
     handed_over t = populated t ∧ lifecycle [] [] t = Some ([], [])).
Proof.
  cbn zeta. split; [apply custody_settled|].
  split; [apply released_after_success|].
  split; [by rewrite released_after_success|].
  intros Hc.
  destruct (released_populated_under_contract Hc fuel op st) as (H1 & H2 & _).
  split; [|exact H1]. by rewrite <- released_after_success.
Qed.

(** C4, as stated, fails: the release calls follow the status of the
    native call, not the content of its output buffers.  Over a native
    library whose [gss_get_name_attribute] succeeds with a value that
    has no display form, [get_name_attribute] returns after two release
    calls for one populated buffer; and when [gss_wrap_aead] fails after
    it has allocated its output, [wrap_aead] raises with no release call
    for one populated buffer. *)
Lemma release_ignores_population :
  let get := run_op (N := Lax.native) 5
               (Op_get_name_attribute 5 Double.key 0 0) Double.st0 in
  let wrap := run_op (N := Lax.native) 0
                (Op_wrap_aead 0 Double.v1 None true None) Double.st0 in
  (get.1.1 = Ok (R_get_attr
                   (mk_GetNameAttributeResult [Double.v1] [[]] true true))
   ∧ populated get.2 = [OutBuffer (buffer_of_bytes Double.v1)]
   ∧ released get.2 = [OutBuffer (buffer_of_bytes Double.v1);
                       OutBuffer GSS_C_EMPTY_BUFFER]
   ∧ length (released get.2) = 2%nat
   ∧ length (populated get.2) = 1%nat
   ∧ lifecycle [] [] get.2 = None)
  ∧ (wrap.1.1 = Raise (GSSError Double.GSS_S_NO_CONTEXT 1)
     ∧ populated wrap.2 = [OutBuffer (buffer_of_bytes Double.v1)]
     ∧ released wrap.2 = []
     ∧ length (released wrap.2) = 0%nat
     ∧ length (populated wrap.2) = 1%nat).
Proof. vm_compute. repeat split. Qed.

(** C7.  [unwrap_aead] makes one native call, and so does [wrap_aead]
    once its [qop] argument converts to a [gss_qop_t] (it is absent, or an
    integer of the unsigned 32-bit range); a [qop] outside that range
    makes [wrap_aead] raise [OverflowError] before any native call, and
    that is its only path with no native call.  In the native call the
    associated-data argument is the null buffer pointer when
    [associated] is absent, and the address of a descriptor holding the
    given bytes and their exact length when it is supplied, the empty
    bytes included; the pointer is null only when [associated] is
    absent. *)
Theorem aead_associated_buffer {W} {N : GssNative W}
    (context : gss_ctx_id_t) (message : bytes) (associated : option bytes)
    (confidential : bool) (qop : option Z) (st : PyState W) :
  let assoc_ptr :=
    match associated with
    | None => GSS_C_NO_BUFFER
    | Some a => Some (mk_gss_buffer_desc (len a) (Some a))
    end in
  match qop_req_of qop with
  | Some qop_req =>
      native_calls (wrap_aead context message associated confidential qop st).2
      = [Call_wrap_aead context (Z.b2z confidential) qop_req assoc_ptr
           (buffer_of_bytes message)]
  | None =>
      wrap_aead context message associated confidential qop st
      = (Raise OverflowError, st, [])
  end
  ∧ (qop_req_of qop = None ↔
       ∃ q, qop = Some q ∧ (q < 0 ∨ OM_uint32_MAX < q))
  ∧ (∀ qop_req, qop_req_of qop = Some qop_req →
       qop_req = default GSS_C_QOP_DEFAULT qop)
  ∧ native_calls (unwrap_aead context message associated st).2
    = [Call_unwrap_aead context (buffer_of_bytes message) assoc_ptr]
  ∧ (assoc_ptr = GSS_C_NO_BUFFER ↔ associated = None).
Proof.
  cbn zeta. rewrite wrap_aead_run, unwrap_aead_run. cbn zeta.
  destruct (gss_unwrap_aead _ _ _ _) as [[w1' [maj_stat' min_stat']] [[ob' cs] qs]].
  split; [|split; [|split; [|split]]].
  - destruct (qop_req_of qop) as [qop_req|]; [|reflexivity].
    destruct (gss_wrap_aead _ _ _ _ _ _) as [[w1 [maj_stat min_stat]] [cu ob]].
    destruct (maj_stat =? GSS_S_COMPLETE);
      [destruct (gss_release_buffer _ _) as [[w2 s2] b']|];
      by destruct associated.
  - destruct qop as [q|]; cbn [qop_req_of]; unfold to_gss_qop_t.
    + destruct (0 <=? q) eqn:H0; destruct (q <=? OM_uint32_MAX) eqn:H1;
        cbn [andb]; split; try done.
      * intros (q' & [= <-] & Hq). lia.
      * intros _. exists q. split; [done|lia].
      * intros _. exists q. split; [done|lia].
      * intros _. exists q. split; [done|lia].
    + split; [done|]. by intros (q & ? & _).
  - intros qop_req. destruct qop as [q|]; cbn [qop_req_of default].
    + unfold to_gss_qop_t. destruct (_ && _); intros H; by inversion H.
    + intros H. by inversion H.
  - destruct (maj_stat' =? GSS_S_COMPLETE);
      [destruct (gss_release_buffer _ _) as [[w2 s2] b']|];
      by destruct associated.
  - by destruct associated.
Qed.

(** C8.  [inquire_name] makes one native call; the out-pointers for the
    mechanism-name information are non-null exactly when [mech_name] is
    true and the out-pointer for the attribute-name set exactly when
    [attrs] is true.  When the call succeeds and the attribute-name set
    left in the local is the empty-set sentinel, the result list is empty
    and no release call is made; when the set is populated, the result
    list is the copy of its elements and the set is released once, after
    the copy.  When the call fails nothing is released. *)
Theorem inquire_name_gated {W} {N : GssNative W}
    (name : gss_name_t) (mech_name attrs : bool) (st : PyState W) :
  let r := inquire_name name mech_name attrs st in
  let native := gss_inquire_name name mech_name mech_name attrs (world st) in
  let s := native.1.2 in
  let name_is_mn := if mech_name then in_name_is_mn native.2 else 0 in
  let attr_names :=
    if attrs then in_attrs native.2 else GSS_C_NO_BUFFER_SET in
  native_calls r.2 = [Call_inquire_name name mech_name mech_name attrs]
  ∧ match r.1.1 with
    | Ok res =>
        succeeded s = true
        ∧ inq_is_mech_name res = bint name_is_mn
        ∧ match attr_names with
          | None =>
              inq_attrs res = [] ∧ released r.2 = []
              ∧ lifecycle [] [] r.2 = Some ([], [])
          | Some elements =>
              inq_attrs res = map char_slice elements
              ∧ released r.2 = [OutBufferSet (Some elements)]
              ∧ lifecycle [] [] r.2 = Some ([], [])
          end
    | Raise e =>
        succeeded s = false ∧ e = GSSError (fst s) (snd s) ∧ released r.2 = []
    | OutOfFuel => False
    end.
Proof.
  cbn zeta. rewrite inquire_name_run.
  destruct (gss_inquire_name _ _ _ _ _) as [[w1 [maj_stat min_stat]] o].
  cbn zeta. unfold succeeded. cbn [fst snd].
  destruct (maj_stat =? GSS_S_COMPLETE) eqn:Hs.
  - unfold inquire_name_locals, store, GSS_C_NO_BUFFER_SET.
    destruct attrs, mech_name; cbn [in_attrs in_name_is_mn in_mech_type];
      try destruct (in_attrs o) as [elements|] eqn:Ha;
      try destruct (gss_release_buffer_set _ _) as [[w2 s2] b'];
      cbn [fst snd native_calls omap released flat_map app inq_attrs
             inq_is_mech_name map];
      (split; [done|]); (split; [done|]); (split; [done|]);
      (split; [done|]); (split; [done|]);
      rewrite lifecycle_Native; cbn [out_buffers in_attrs]; rewrite ?Ha;
      cbn [List.filter populated_param app];
      rewrite ?lifecycle_CopyOut; cbn [app];
      by rewrite ?lifecycle_ReleaseBufferSet.
  - done.
Qed.

(** C9.  [set_cred_option] without [creds] creates a fresh [Creds]
    object before the native call; the native call receives the raw
    handle of the supplied or fresh object as an in/out parameter and
    what it leaves there is stored back in that same object, no other
    object is touched, and on success the object returned is the one
    supplied, or the fresh one. *)
Theorem set_cred_option_in_place {W} {N : GssNative W}
    (desired_aspect : gss_OID_desc) (creds : option CredsRef)
    (value : option bytes) (st : PyState W) :
  let r := set_cred_option desired_aspect creds value st in
  let fresh_creds := fresh (dom (creds_heap st)) in
  let output_creds := default fresh_creds creds in
  let raw :=
    match creds with
    | Some c => default GSS_C_NO_CREDENTIAL (creds_heap st !! c)
    | None => GSS_C_NO_CREDENTIAL
    end in
  let value_buffer :=
    match value with
    | Some v => buffer_of_bytes v
    | None => GSS_C_EMPTY_BUFFER
    end in
  let native :=
    gss_set_cred_option raw desired_aspect value_buffer (world st) in
  let ev :=
    Native (Call_set_cred_option raw desired_aspect value_buffer)
      native.1.2 (Out_cred native.2) in
  (fresh_creds ∉ dom (creds_heap st))
  ∧ r.2 = match creds with
          | None => [NewCreds fresh_creds; ev]
          | Some _ => [ev]
          end
  ∧ r.1.1 = (if succeeded native.1.2 then Ok output_creds
             else Raise (GSSError (fst native.1.2) (snd native.1.2)))
  ∧ creds_heap r.1.2 !! output_creds = Some native.2
  ∧ (∀ c, c ≠ output_creds → creds_heap r.1.2 !! c = creds_heap st !! c).
Proof.
  cbn zeta. split; [apply is_fresh|].
  rewrite set_cred_option_run. cbn zeta. unfold GSS_C_EMPTY_BUFFER.
  destruct creds as [c|]; cbn [default].
  - destruct (gss_set_cred_option _ _ _ _) as [[w1 [maj_stat min_stat]] raw'].
    unfold succeeded. cbn [fst snd].
    destruct (maj_stat =? GSS_S_COMPLETE); cbn [fst snd app creds_heap];
      (repeat split; [by rewrite lookup_insert_eq
                     | by intros c' Hc'; rewrite lookup_insert_ne]).
  - rewrite lookup_insert_eq. cbn [default].
    destruct (gss_set_cred_option _ _ _ _) as [[w1 [maj_stat min_stat]] raw'].
    unfold succeeded. cbn [fst snd].
    destruct (maj_stat =? GSS_S_COMPLETE); cbn [fst snd app creds_heap];
      (repeat split; [by rewrite lookup_insert_eq
                     | by intros c' Hc'; rewrite !lookup_insert_ne]).
Qed.

(** C5.  With a usage other than the literals "initiate", "accept" and
    "both", [add_cred_with_password] raises an exception of the binding's
    own (the [ValueError] for the usage, when the credential argument is
    a [Creds] object) with no native call and the state unchanged; with
    one of the three literals the native call receives the corresponding
    usage constant. *)
Theorem add_cred_usage_validated {W} {N : GssNative W}
    (input_cred : option CredsRef) (name : gss_name_t) (mech : gss_OID_desc)
    (password : bytes) (usage : string) (init_lifetime accept_lifetime : option Z)
    (st : PyState W) :
  let r := add_cred_with_password input_cred name mech password usage
             init_lifetime accept_lifetime st in
  (usage ≠ "initiate"%string → usage ≠ "accept"%string →
   usage ≠ "both"%string →
   ∃ e, r = (Raise e, st, [])
        ∧ InvalidInput e
        ∧ (∀ c, input_cred = Some c →
                e = ValueError (invalid_usage_message usage)))
  ∧ (∀ c u, input_cred = Some c → (usage, u) ∈ usage_table →
       native_calls r.2
       = [Call_add_cred_with_password
            (default GSS_C_NO_CREDENTIAL (creds_heap st !! c)) name mech
            (buffer_of_bytes password) u (c_py_ttl_to_c init_lifetime)
            (c_py_ttl_to_c accept_lifetime)]).
Proof.
  cbn zeta. split.
  - intros H1 H2 H3. destruct input_cred as [c|].
    + rewrite add_cred_with_password_run, usage_chain_invalid by done.
      eexists. split; [reflexivity|]. split; [exact I|]. by intros c' _.
    + rewrite add_cred_with_password_None_run.
      eexists. split; [reflexivity|]. split; [exact I|]. by intros c' [=].
  - intros c u -> Hu.
    rewrite add_cred_with_password_run, (usage_chain_valid _ _ Hu). cbn zeta.
    destruct (gss_add_cred_with_password _ _ _ _ _ _ _ _)
      as [[w1 [maj_stat min_stat]] o].
    by destruct (maj_stat =? GSS_S_COMPLETE).
Qed.

Lemma add_cred_usage_validated_witness :
  "bogus"%string ≠ "initiate"%string
  ∧ "bogus"%string ≠ "accept"%string
  ∧ "bogus"%string ≠ "both"%string
  ∧ ∃ e, add_cred_with_password (N := Double.native) (Some 1%positive) 5
           Double.key Double.key "bogus" None None Double.st0
         = (Raise e, Double.st0, [])
         ∧ InvalidInput e.
Proof.
  split; [discriminate|]. split; [discriminate|]. split; [discriminate|].
  destruct (add_cred_usage_validated (N := Double.native) (Some 1%positive) 5
              Double.key Double.key "bogus" None None Double.st0)
    as [H _].
  destruct H as (e & He & Hi & _); [discriminate..|].
  exists e. split; [exact He | exact Hi].
Defined.

(** C6, as amended.  With [None] as input credential,
    [add_cred_with_password] raises [TypeError] before any native call.
    With a [Creds] object (whose native handle may be the null
    credential) and an accepted usage, the native call is made first,
    with the raw handle of that object; the binding allocates its result
    [Creds] only after the call succeeded, a fresh object that holds the
    credential handle the native call produced; when the call fails no
    [Creds] object is allocated. *)
Theorem add_cred_input_cred {W} {N : GssNative W}
    (input_cred : option CredsRef) (name : gss_name_t) (mech : gss_OID_desc)
    (password : bytes) (usage : string) (u : gss_cred_usage_t)
    (init_lifetime accept_lifetime : option Z) (st : PyState W) :
  (usage, u) ∈ usage_table →
  let r := add_cred_with_password input_cred name mech password usage
             init_lifetime accept_lifetime st in
  match input_cred with
  | None =>
      r = (Raise (TypeError "Argument 'input_cred' must not be None"), st, [])
  | Some c =>
      let raw := default GSS_C_NO_CREDENTIAL (creds_heap st !! c) in
      let native :=
        gss_add_cred_with_password raw name mech (buffer_of_bytes password) u
          (c_py_ttl_to_c init_lifetime) (c_py_ttl_to_c accept_lifetime)
          (world st) in
      let ev :=
        Native
          (Call_add_cred_with_password raw name mech
             (buffer_of_bytes password) u (c_py_ttl_to_c init_lifetime)
             (c_py_ttl_to_c accept_lifetime))
          native.1.2 (Out_add_cred native.2) in
      let rc := fresh (dom (creds_heap st)) in
      if succeeded native.1.2 then
        r.2 = [ev; NewCreds rc]
        ∧ (rc ∉ dom (creds_heap st))
        ∧ (∃ res, r.1.1 = Ok res ∧ add_creds res = rc)
        ∧ creds_heap r.1.2 !! rc = Some (ac_output_creds native.2)
      else
        r.2 = [ev]
        ∧ r.1.1 = Raise (GSSError (fst native.1.2) (snd native.1.2))
        ∧ creds_heap r.1.2 = creds_heap st
  end.
Proof.
  intros Hu. cbn zeta. destruct input_cred as [c|]; [|reflexivity].
  rewrite add_cred_with_password_run, (usage_chain_valid _ _ Hu). cbn zeta.
  destruct (gss_add_cred_with_password _ _ _ _ _ _ _ _)
    as [[w1 [maj_stat min_stat]] o].
  unfold succeeded. cbn [fst snd].
  destruct (maj_stat =? GSS_S_COMPLETE); cbn [fst snd creds_heap].
  - split; [done|]. split; [apply is_fresh|]. split; [by eexists|].
    by rewrite lookup_insert_eq.
  - done.
Qed.

Lemma add_cred_input_cred_witness :
  ("initiate"%string, GSS_C_INITIATE) ∈ usage_table
  ∧ add_cred_with_password (N := Double.native) None 5 Double.key Double.key
      "initiate" None None Double.st0
    = (Raise (TypeError "Argument 'input_cred' must not be None"),
       Double.st0, []).
Proof.
  assert (H : ("initiate"%string, GSS_C_INITIATE) ∈ usage_table)
    by (unfold usage_table; apply elem_of_cons; by left).
  split; [exact H|].
  exact (add_cred_input_cred (N := Double.native) None 5 Double.key Double.key
           "initiate" GSS_C_INITIATE None None Double.st0 H).
Defined.

(** C6, as stated, fails: [input_cred] is declared [not None], so with
    an absent input credential the operation does not proceed; it raises
    [TypeError] and the native layer is never called. *)
Lemma add_cred_rejects_absent_input_cred :
  let r := add_cred_with_password (N := Double.native) None 5 Double.key
             Double.key "initiate" None None Double.st0 in
  r.1.1 = Raise (TypeError "Argument 'input_cred' must not be None")
  ∧ native_calls r.2 = []
  ∧ ¬ (∃ res, r.1.1 = Ok res).
Proof. cbn. split; [done|]. split; [done|]. by intros [res [=]]. Qed.

(** * Further properties of the wrappers *)

Lemma char_slice_of_bytes (b : bytes) : char_slice (buffer_of_bytes b) = b.
Proof.
  unfold char_slice, buffer_of_bytes, len. cbn [buf_value buf_length].
  rewrite Nat2Z.id. apply firstn_all.
Qed.

(** X1.  The buffer bridge round trip: the descriptor built for a Python
    bytes object, [gss_buffer_desc(len(b), b)], copied back out with
    [(<char*>value)[:length]] gives the same bytes, and its pointer is
    never null, also for the empty bytes; and a copy out of any
    descriptor never holds more bytes than the descriptor's length. *)
Theorem buffer_round_trip (b : bytes) (d : gss_buffer_desc) :
  char_slice (buffer_of_bytes b) = b
  ∧ populated_param (OutBuffer (buffer_of_bytes b)) = true
  ∧ (length (char_slice d) ≤ Z.to_nat (buf_length d))%nat.
Proof.
  split; [apply char_slice_of_bytes|]. split; [reflexivity|].
  unfold char_slice. destruct (buf_value d) as [bs|]; cbn [length]; [|lia].
  rewrite length_take. lia.
Qed.

(** X3.  When [get_name_attribute] returns, the list of raw values and
    the list of display values have the same length, which is the number
    of native calls made, and they are not empty. *)
Theorem get_name_attribute_paired {W} {N : GssNative W}
    (fuel : nat) (name : gss_name_t) (attr : bytes)
    (complete authenticated : Z) (st st' : PyState W)
    (r : GetNameAttributeResult) (t : list Event) :
  get_name_attribute fuel name attr complete authenticated st = (Ok r, st', t) →
  length (get_values r) = length (get_display_values r)
  ∧ length (get_values r) = length (native_calls t)
  ∧ (1 ≤ length (get_values r))%nat.
Proof.
  unfold get_name_attribute. mred.
  destruct (get_name_attribute_loop _ _ _ _ _ _ _ _ _ _ _)
    as [[[[[[pv pd] a] c]|e|] st2] t2] eqn:Hloop; try discriminate.
  intros [= <- <- <-]. rewrite app_nil_r.
  apply get_name_attribute_loop_returns in Hloop.
  destruct Hloop as (Hchain & Hlen & -> & -> & _ & _).
  cbn [get_values get_display_values app]. rewrite !length_map, Hlen.
  split; [done|]. split; [done|].
  destruct (get_attr_events t2); [cbn in Hchain; discriminate | simpl; lia].
Qed.

Lemma get_name_attribute_paired_witness :
  ∃ r st' t,
    get_name_attribute (N := Double.native) 5 5 Double.key 0 0 Double.st0
    = (Ok r, st', t)
    ∧ length (get_values r) = length (get_display_values r)
    ∧ length (get_values r) = 2%nat.
Proof.
  assert (H : ∃ r st' t,
    get_name_attribute (N := Double.native) 5 5 Double.key 0 0 Double.st0
    = (Ok r, st', t) ∧ length (native_calls t) = 2%nat)
    by (eexists _, _, _; vm_compute; split; reflexivity).
  destruct H as (r & st' & t & H & Hn). exists r, st', t. split; [exact H|].
  destruct (get_name_attribute_paired _ _ _ _ _ _ _ _ _ H) as (H1 & H2 & _).
  split; [exact H1|]. by rewrite H2.
Defined.

Section Get_counts.
Context {W : Type} {N : GssNative W}.

Lemma get_name_attribute_loop_release_count name ab :
  ∀ fuel v d c a more pv pd st,
    let r := get_name_attribute_loop fuel name ab v d c a more pv pd st in
    length (released r.2)
    = (2 * length (List.filter succeeded (statuses r.2)))%nat.
Proof.
  induction fuel as [|fuel IH]; intros v d c a more pv pd st; cbn zeta.
  - rewrite get_name_attribute_loop_O. by destruct (more =? 0).
  - rewrite get_name_attribute_loop_step. destruct (more =? 0); [done|].
    destruct (gss_get_name_attribute _ _ _ _ _ _) as [[w1 [maj_stat min_stat]] o].
    destruct (maj_stat =? GSS_S_COMPLETE) eqn:Hs.
    + destruct (gss_release_buffer (ga_value o) w1) as [[w2 s2] v'].
      destruct (gss_release_buffer (ga_display_value o) w2) as [[w3 s3] d'].
      specialize (IH v' d' (ga_complete o) (ga_authenticated o) (ga_more o)
                    (pv ++ [char_slice (ga_value o)])
                    (pd ++ [char_slice (ga_display_value o)])
                    (mk_PyState w3 (creds_heap st))).
      destruct (get_name_attribute_loop _ _ _ _ _ _ _ _ _ _ _) as [[out st2] t2].
      cbn [fst snd] in *. rewrite released_turn, statuses_turn.
      cbn [List.filter length]. unfold succeeded at 1. cbn [fst].
      rewrite Hs. cbn [length]. lia.
    + cbn [fst snd]. rewrite statuses_Native. cbn [released flat_map app
        List.filter length]. unfold succeeded. cbn [fst]. by rewrite Hs.
Qed.

Lemma filter_all_succeeded (sts : list Status) :
  Forall (λ s, succeeded s = true) sts → List.filter succeeded sts = sts.
Proof.
  induction 1 as [|s sts Hs _ IH]; [done|]. cbn. by rewrite Hs, IH.
Qed.

Lemma filter_failed_last (pre : list Status) (s : Status) :
  Forall (λ s, succeeded s = true) pre → succeeded s = false →
  List.filter succeeded (pre ++ [s]) = pre.
Proof.
  intros Hpre Hs. rewrite List.filter_app, filter_all_succeeded by done.
  cbn. rewrite Hs. apply app_nil_r.
Qed.

End Get_counts.

(** X4.  The release calls of [get_name_attribute], with no assumption on
    the native library: two for every native call when the wrapper
    returns (or is still looping), two for every native call but the
    last, failed one when it raises. *)
Theorem get_name_attribute_release_count {W} {N : GssNative W}
    (fuel : nat) (name : gss_name_t) (attr : bytes)
    (complete authenticated : Z) (st : PyState W) :
  let r := get_name_attribute fuel name attr complete authenticated st in
  let calls := length (native_calls r.2) in
  length (released r.2)
  = match r.1.1 with
    | Raise _ => (2 * (calls - 1))%nat
    | _ => (2 * calls)%nat
    end.
Proof.
  cbn zeta.
  assert (Hc : ∀ t, length (native_calls t) = length (statuses t)).
  { intros t. unfold native_calls, statuses.
    induction t as [|[] t IH]; cbn; congruence. }
  rewrite Hc.
  pose proof (get_name_attribute_discipline fuel name attr complete
                authenticated st) as [Hd _].
  unfold get_name_attribute in *. revert Hd. mred.
  pose proof (get_name_attribute_loop_release_count name (buffer_of_bytes attr)
                fuel (mk_gss_buffer_desc 0 None) (mk_gss_buffer_desc 0 None)
                complete authenticated (-1) [] [] st) as Hr. cbn zeta in Hr.
  destruct (get_name_attribute_loop _ _ _ _ _ _ _ _ _ _ _)
    as [[[[[[pv pd] a'] c']|e|] st2] t2]; cbn [fst snd] in *;
    rewrite ?app_nil_r; rewrite Hr; cbn [native_discipline].
  - intros Hd. by rewrite filter_all_succeeded.
  - intros (pre & s & -> & Hpre & Hs & _).
    rewrite filter_failed_last, length_app by done. cbn [length]. lia.
  - intros Hd. by rewrite filter_all_succeeded.
Qed.

(** X5.  The loop of [get_name_attribute] has no bound of its own: over a
    native library that always succeeds and never clears the
    continuation flag the wrapper neither returns nor raises, whatever
    the fuel, and makes as many native calls as it is given fuel. *)
Theorem get_name_attribute_unbounded {W} {N : GssNative W}
    (Hn : never_exhausted N) (fuel : nat) (name : gss_name_t) (attr : bytes)
    (complete authenticated : Z) (st : PyState W) :
  let r := get_name_attribute fuel name attr complete authenticated st in
  r.1.1 = OutOfFuel ∧ length (native_calls r.2) = fuel.
Proof.
  cbn zeta. unfold get_name_attribute. mred.
  assert (H : ∀ fuel v d c a more pv pd st, more ≠ 0 →
    let r := get_name_attribute_loop fuel name (buffer_of_bytes attr) v d c a
               more pv pd st in
    r.1.1 = OutOfFuel ∧ length (native_calls r.2) = fuel).
  { clear fuel st complete authenticated.
    induction fuel as [|fuel IH]; intros v d c a more pv pd st Hm; cbn zeta.
    - rewrite get_name_attribute_loop_O.
      by destruct (Z.eqb_spec more 0).
    - rewrite get_name_attribute_loop_step.
      destruct (Z.eqb_spec more 0); [done|].
      pose proof (Hn name (buffer_of_bytes attr) v d more (world st)) as Hcall.
      cbn zeta in Hcall.
      destruct (gss_get_name_attribute _ _ _ _ _ _)
        as [[w1 [maj_stat min_stat]] o].
      unfold succeeded in Hcall. cbn [fst snd] in Hcall.
      destruct Hcall as [-> Hmore].
      destruct (gss_release_buffer (ga_value o) w1) as [[w2 s2] v'].
      destruct (gss_release_buffer (ga_display_value o) w2) as [[w3 s3] d'].
      specialize (IH v' d' (ga_complete o) (ga_authenticated o) (ga_more o)
                    (pv ++ [char_slice (ga_value o)])
                    (pd ++ [char_slice (ga_display_value o)])
                    (mk_PyState w3 (creds_heap st)) Hmore).
      destruct (get_name_attribute_loop _ _ _ _ _ _ _ _ _ _ _) as [[out st2] t2].
      cbn [fst snd] in *. rewrite native_calls_turn. cbn [length].
      destruct IH as [-> ->]. done. }
  specialize (H fuel (mk_gss_buffer_desc 0 None) (mk_gss_buffer_desc 0 None)
                complete authenticated (-1) [] [] st ltac:(done)).
  cbn zeta in H.
  destruct (get_name_attribute_loop _ _ _ _ _ _ _ _ _ _ _)
    as [[[[[[pv pd] a'] c']|e|] st2] t2]; cbn [fst snd] in *;
    destruct H as [H1 H2]; try discriminate. rewrite ?app_nil_r. done.
Qed.

Lemma Endless_never_exhausted : never_exhausted Endless.native.
Proof. intros name attr value display more w. cbn. done. Qed.

Lemma get_name_attribute_unbounded_witness :
  never_exhausted Endless.native
  ∧ (get_name_attribute (N := Endless.native) 7 5 Double.key 0 0
       Double.st0).1.1 = OutOfFuel.
Proof.
  split; [exact Endless_never_exhausted|].
  exact (proj1 (get_name_attribute_unbounded Endless_never_exhausted 7 5
                  Double.key 0 0 Double.st0)).
Defined.

(** X6.  An attribute the native library does not know: when the first
    native call fails, [get_name_attribute] raises the error with the
    codes of that call, after one native call, with no release call and
    without touching the [Creds] store. *)
Theorem get_name_attribute_first_call_fails {W} {N : GssNative W}
    (fuel : nat) (name : gss_name_t) (attr : bytes)
    (complete authenticated : Z) (st : PyState W) :
  let native :=
    gss_get_name_attribute name (buffer_of_bytes attr) GSS_C_EMPTY_BUFFER
      GSS_C_EMPTY_BUFFER (-1) (world st) in
  succeeded native.1.2 = false →
  let r := get_name_attribute (S fuel) name attr complete authenticated st in
  r.1.1 = Raise (GSSError (fst native.1.2) (snd native.1.2))
  ∧ length (native_calls r.2) = 1%nat
  ∧ released r.2 = []
  ∧ creds_heap r.1.2 = creds_heap st.
Proof.
  cbn zeta. unfold get_name_attribute, GSS_C_EMPTY_BUFFER. mred.
  rewrite get_name_attribute_loop_step. cbn [Z.eqb].
  destruct (gss_get_name_attribute _ _ _ _ _ _) as [[w1 [maj_stat min_stat]] o].
  unfold succeeded. cbn [fst snd]. intros ->. done.
Qed.

Lemma get_name_attribute_first_call_fails_witness :
  succeeded
    (gss_get_name_attribute (GssNative := Double.native) 0
       (buffer_of_bytes Double.key) GSS_C_EMPTY_BUFFER GSS_C_EMPTY_BUFFER (-1)
       (world Double.st0)).1.2 = false
  ∧ (get_name_attribute (N := Double.native) 3 0 Double.key 0 0
       Double.st0).1.1 = Raise (GSSError Double.GSS_S_UNAVAILABLE 4).
Proof.
  split; [reflexivity|].
  exact (proj1 (get_name_attribute_first_call_fails (N := Double.native) 2 0
                  Double.key 0 0 Double.st0 eq_refl)).
Defined.

(** X7.  [set_name_attribute] for any content of its uninitialised
    counter: the calls made are a prefix of one call per value, in
    order, each with the attribute buffer and the value's own buffer;
    the completeness flag of the [k]-th call is the caller's [complete]
    exactly when counter plus [k], modulo the size of [size_t], equals
    the number of values, and 0 otherwise.  When the wrapper returns,
    all the calls were made. *)
Theorem set_name_attribute_any_counter {W} {N : GssNative W}
    (name : gss_name_t) (attr : bytes) (value : list bytes) (complete : bool)
    (i : Z) (st : PyState W) :
  let r := set_name_attribute name attr value complete i st in
  let sent :=
    imap (λ j val,
            Call_set_name_attribute name
              (complete_flag_at complete (len value) i (S j))
              (buffer_of_bytes attr) (buffer_of_bytes val)) value in
  native_calls r.2 = take (length (native_calls r.2)) sent
  ∧ (length (native_calls r.2) ≤ length value)%nat
  ∧ (∀ u, r.1.1 = Ok u → native_calls r.2 = sent).
Proof.
  cbn zeta.
  destruct (set_name_attribute_loop_any_counter name complete
              (buffer_of_bytes attr) (len value) value i st)
    as (Hcalls & Hle & Hok).
  fold (set_name_attribute name attr value complete i st) in Hcalls, Hle, Hok.
  split; [exact Hcalls|]. split; [exact Hle|].
  intros u Hu. rewrite Hcalls, (Hok u Hu).
  apply firstn_all2. by rewrite length_imap.
Qed.

(** X8.  With [complete=False] the uninitialised counter is harmless:
    whatever it holds, the calls made are a prefix of the protocol's
    calls (every flag 0), and all of them when the wrapper returns. *)
Theorem set_name_attribute_incomplete_any_counter {W} {N : GssNative W}
    (name : gss_name_t) (attr : bytes) (value : list bytes) (i : Z)
    (st : PyState W) :
  let r := set_name_attribute name attr value false i st in
  let expected :=
    expected_set_calls name false (buffer_of_bytes attr) value in
  native_calls r.2 = take (length (native_calls r.2)) expected
  ∧ (length (native_calls r.2) ≤ length value)%nat
  ∧ (∀ u, r.1.1 = Ok u → native_calls r.2 = expected).
Proof.
  cbn zeta.
  destruct (set_name_attribute_loop_incomplete name (buffer_of_bytes attr)
              (len value) value i st) as (Hcalls & Hle & Hok).
  fold (set_name_attribute name attr value false i st) in Hcalls, Hle, Hok.
  split; [exact Hcalls|]. split; [exact Hle|].
  intros u Hu. rewrite Hcalls, (Hok u Hu).
  apply firstn_all2. by rewrite expected_set_calls_length.
Qed.

Section Creds_frame.
Context {W : Type} {N : GssNative W}.

Lemma set_name_attribute_loop_frame name complete ab value_len :
  ∀ value i st,
    let r := set_name_attribute_loop name complete ab value_len i value st in
    creds_heap r.1.2 = creds_heap st ∧ List.filter is_NewCreds r.2 = [].
Proof.
  induction value as [|val rest IH]; intros i st; [done|].
  cbn zeta. rewrite set_name_attribute_loop_step. cbn zeta.
  destruct (gss_set_name_attribute _ _ _ _ _) as [[w' [maj_stat min_stat]] u].
  destruct (maj_stat =? GSS_S_COMPLETE); [|done].
  specialize (IH ((i + 1) mod size_t_modulus) (mk_PyState w' (creds_heap st))).
  destruct (set_name_attribute_loop _ _ _ _ _ rest _) as [[o st2] t2].
  exact IH.
Qed.

Lemma get_name_attribute_loop_frame name ab :
  ∀ fuel v d c a more pv pd st,
    let r := get_name_attribute_loop fuel name ab v d c a more pv pd st in
    creds_heap r.1.2 = creds_heap st ∧ List.filter is_NewCreds r.2 = [].
Proof.
  induction fuel as [|fuel IH]; intros v d c a more pv pd st; cbn zeta.
  - rewrite get_name_attribute_loop_O. by destruct (more =? 0).
  - rewrite get_name_attribute_loop_step. destruct (more =? 0); [done|].
    destruct (gss_get_name_attribute _ _ _ _ _ _) as [[w1 [maj_stat min_stat]] o].
    destruct (maj_stat =? GSS_S_COMPLETE); [|done].
    destruct (gss_release_buffer (ga_value o) w1) as [[w2 s2] v'].
    destruct (gss_release_buffer (ga_display_value o) w2) as [[w3 s3] d'].
    specialize (IH v' d' (ga_complete o) (ga_authenticated o) (ga_more o)
                  (pv ++ [char_slice (ga_value o)])
                  (pd ++ [char_slice (ga_display_value o)])
                  (mk_PyState w3 (creds_heap st))).
    destruct (get_name_attribute_loop _ _ _ _ _ _ _ _ _ _ _) as [[out st2] t2].
    exact IH.
Qed.

End Creds_frame.

(** X10.  The wrappers without a loop and without an argument check
    make exactly one native call on every path, success or failure:
    nothing is retried and nothing is skipped.  The one exception is
    [wrap_aead] given a [qop] that does not fit [gss_qop_t]: it raises
    [OverflowError], makes no native call and leaves the state as it
    was. *)
Theorem single_call_wrappers {W} {N : GssNative W}
    (fuel : nat) (op : Operation) (st : PyState W) :
  single_call op = true →
  if arguments_convert op
  then length (native_calls (run_op fuel op st).2) = 1%nat
  else run_op fuel op st = (Raise OverflowError, st, []).
Proof.
  destruct op; cbn [single_call arguments_convert]; try discriminate;
    intros _; cbn [run_op];
    first [rewrite run_then_ret | rewrite run_then_const].
  - rewrite wrap_aead_run. cbn zeta.
    destruct (qop_req_of _) as [qop_req|]; [|reflexivity].
    destruct (gss_wrap_aead _ _ _ _ _ _) as [[w1 [maj_stat min_stat]] [cu ob]].
    destruct (maj_stat =? GSS_S_COMPLETE);
      [destruct (gss_release_buffer _ _) as [[w2 s2] b']|]; done.
  - rewrite unwrap_aead_run. cbn zeta.
    destruct (gss_unwrap_aead _ _ _ _) as [[w1 [maj_stat min_stat]] [[ob cs] qs]].
    destruct (maj_stat =? GSS_S_COMPLETE);
      [destruct (gss_release_buffer _ _) as [[w2 s2] b']|]; done.
  - rewrite display_name_ext_run.
    destruct (gss_display_name_ext _ _ _) as [[w1 [maj_stat min_stat]] b].
    cbn zeta. destruct (maj_stat =? GSS_S_COMPLETE);
      [destruct (gss_release_buffer _ _) as [[w2 s2] b']|]; done.
  - rewrite inquire_name_run.
    destruct (gss_inquire_name _ _ _ _ _) as [[w1 [maj_stat min_stat]] o].
    cbn zeta. destruct (maj_stat =? GSS_S_COMPLETE);
      [destruct (in_attrs _);
       [destruct (gss_release_buffer_set _ _) as [[w2 s2] b']|]|]; done.
  - rewrite delete_name_attribute_run.
    destruct (gss_delete_name_attribute _ _ _) as [[w1 [maj_stat min_stat]] u].
    cbn zeta. by destruct (maj_stat =? GSS_S_COMPLETE).
  - rewrite export_name_composite_run.
    destruct (gss_export_name_composite _ _) as [[w1 [maj_stat min_stat]] b].
    cbn zeta. destruct (maj_stat =? GSS_S_COMPLETE);
      [destruct (gss_release_buffer _ _) as [[w2 s2] b']|]; done.
  - rewrite set_cred_option_run. destruct creds as [c|]; cbn zeta;
      destruct (gss_set_cred_option _ _ _ _) as [[w1 [maj_stat min_stat]] raw'];
      by destruct (maj_stat =? GSS_S_COMPLETE).
Qed.

Lemma single_call_wrappers_witness :
  (single_call (Op_wrap_aead 1 Double.v1 None true (Some 7)) = true
   ∧ length (native_calls
               (run_op (N := Double.native) 0
                  (Op_wrap_aead 1 Double.v1 None true (Some 7)) Double.st0).2)
     = 1%nat)
  ∧ (single_call (Op_wrap_aead 1 Double.v1 None true (Some (-1))) = true
     ∧ run_op (N := Double.native) 0
         (Op_wrap_aead 1 Double.v1 None true (Some (-1))) Double.st0
       = (Raise OverflowError, Double.st0, []))
  ∧ (single_call (Op_wrap_aead 1 Double.v1 None true (Some 4294967296)) = true
     ∧ run_op (N := Double.native) 0
         (Op_wrap_aead 1 Double.v1 None true (Some 4294967296)) Double.st0
       = (Raise OverflowError, Double.st0, [])).
Proof.
  split; [|split]; (split; [reflexivity|]).
  - exact (single_call_wrappers (N := Double.native) 0
             (Op_wrap_aead 1 Double.v1 None true (Some 7)) Double.st0 eq_refl).
  - exact (single_call_wrappers (N := Double.native) 0
             (Op_wrap_aead 1 Double.v1 None true (Some (-1))) Double.st0
             eq_refl).
  - exact (single_call_wrappers (N := Double.native) 0
             (Op_wrap_aead 1 Double.v1 None true (Some 4294967296)) Double.st0
             eq_refl).
Defined.

(** X11.  The wrappers that do not handle [Creds] objects never create
    one and leave the store of [Creds] objects as it was, on every
    path. *)
Theorem creds_store_untouched {W} {N : GssNative W}
    (fuel : nat) (op : Operation) (st : PyState W) :
  handles_creds op = false →
  creds_heap (run_op fuel op st).1.2 = creds_heap st
  ∧ List.filter is_NewCreds (run_op fuel op st).2 = [].
Proof.
  destruct op; cbn [handles_creds]; try discriminate; intros _; cbn [run_op];
    first [rewrite run_then_ret | rewrite run_then_const].
  - rewrite wrap_aead_run. cbn zeta.
    destruct (qop_req_of _) as [qop_req|]; [|done].
    destruct (gss_wrap_aead _ _ _ _ _ _) as [[w1 [maj_stat min_stat]] [cu ob]].
    destruct (maj_stat =? GSS_S_COMPLETE);
      [destruct (gss_release_buffer _ _) as [[w2 s2] b']|]; done.
  - rewrite unwrap_aead_run. cbn zeta.
    destruct (gss_unwrap_aead _ _ _ _) as [[w1 [maj_stat min_stat]] [[ob cs] qs]].
    destruct (maj_stat =? GSS_S_COMPLETE);
      [destruct (gss_release_buffer _ _) as [[w2 s2] b']|]; done.
  - rewrite display_name_ext_run.
    destruct (gss_display_name_ext _ _ _) as [[w1 [maj_stat min_stat]] b].
    cbn zeta. destruct (maj_stat =? GSS_S_COMPLETE);
      [destruct (gss_release_buffer _ _) as [[w2 s2] b']|]; done.
  - rewrite inquire_name_run.
    destruct (gss_inquire_name _ _ _ _ _) as [[w1 [maj_stat min_stat]] o].
    cbn zeta. destruct (maj_stat =? GSS_S_COMPLETE);
      [destruct (in_attrs _);
       [destruct (gss_release_buffer_set _ _) as [[w2 s2] b']|]|]; done.
  - pose proof (set_name_attribute_loop_frame name complete
                  (buffer_of_bytes attr) (len value) value i st) as H.
    cbn zeta in H.
    fold (set_name_attribute name attr value complete i st) in H.
    by destruct (set_name_attribute name attr value complete i st)
      as [[[u|e|] st1] t1].
  - unfold get_name_attribute. mred.
    pose proof (get_name_attribute_loop_frame name (buffer_of_bytes attr)
                  fuel (mk_gss_buffer_desc 0 None) (mk_gss_buffer_desc 0 None)
                  complete authenticated (-1) [] [] st) as H. cbn zeta in H.
    destruct (get_name_attribute_loop _ _ _ _ _ _ _ _ _ _ _)
      as [[[[[[pv pd] a'] c']|e|] st2] t2]; cbn [fst snd] in *;
      rewrite ?app_nil_r; exact H.
  - rewrite delete_name_attribute_run.
    destruct (gss_delete_name_attribute _ _ _) as [[w1 [maj_stat min_stat]] u].
    cbn zeta. by destruct (maj_stat =? GSS_S_COMPLETE).
  - rewrite export_name_composite_run.
    destruct (gss_export_name_composite _ _) as [[w1 [maj_stat min_stat]] b].
    cbn zeta. destruct (maj_stat =? GSS_S_COMPLETE);
      [destruct (gss_release_buffer _ _) as [[w2 s2] b']|]; done.
Qed.

Lemma creds_store_untouched_witness :
  handles_creds (Op_get_name_attribute 5 Double.key 0 0) = false
  ∧ creds_heap
      (run_op (N := Double.native) 5 (Op_get_name_attribute 5 Double.key 0 0)
         Double.st0).1.2 = creds_heap Double.st0.
Proof.
  split; [reflexivity|].
  exact (proj1 (creds_store_untouched (N := Double.native) 5
                  (Op_get_name_attribute 5 Double.key 0 0) Double.st0 eq_refl)).
Defined.

(** X12.  [add_cred_with_password] does not modify its input
    credential: every [Creds] object that existed before the call holds
    the same handle after it; on success the credential returned is an
    object that did not exist before, so not the input one; on an error
    the store is unchanged. *)
Theorem add_cred_input_untouched {W} {N : GssNative W}
    (c : CredsRef) (name : gss_name_t) (mech : gss_OID_desc)
    (password : bytes) (usage : string) (init_lifetime accept_lifetime : option Z)
    (st : PyState W) :
  is_Some (creds_heap st !! c) →
  let r := add_cred_with_password (Some c) name mech password usage
             init_lifetime accept_lifetime st in
  (∀ c', is_Some (creds_heap st !! c') →
         creds_heap r.1.2 !! c' = creds_heap st !! c')
  ∧ (∀ res, r.1.1 = Ok res →
            add_creds res ≠ c ∧ creds_heap st !! add_creds res = None)
  ∧ (∀ e, r.1.1 = Raise e → creds_heap r.1.2 = creds_heap st).
Proof.
  intros Hc. cbn zeta. rewrite add_cred_with_password_run.
  destruct (if String.eqb usage "initiate" then _ else _) as [c_usage|];
    [|by (repeat split; try done; intros res [=])].
  cbn zeta.
  destruct (gss_add_cred_with_password _ _ _ _ _ _ _ _)
    as [[w1 [maj_stat min_stat]] o].
  pose proof (is_fresh (dom (creds_heap st))) as Hfresh.
  apply not_elem_of_dom in Hfresh.
  destruct (maj_stat =? GSS_S_COMPLETE); cbn [fst snd creds_heap].
  - split; [|split].
    + intros c' Hc'.
      assert (fresh (dom (creds_heap st)) ≠ c')
        by (intros Heq; rewrite <- Heq, Hfresh in Hc'; by destruct Hc').
      by rewrite !lookup_insert_ne.
    + intros res [= <-]. cbn [add_creds]. split; [|done].
      intros Heq. rewrite <- Heq, Hfresh in Hc. by destruct Hc.
    + by intros e [=].
  - split; [done|]. split; [by intros res [=] | done].
Qed.

Lemma add_cred_input_untouched_witness :
  let st := mk_PyState 0%nat ({[1%positive := 5]} : gmap CredsRef gss_cred_id_t) in
  is_Some (creds_heap st !! 1%positive)
  ∧ ∀ res,
      (add_cred_with_password (N := Double.native) (Some 1%positive) 5
         Double.key Double.key "both" None None st).1.1 = Ok res →
      add_creds res ≠ 1%positive.
Proof.
  cbn zeta. split; [by eexists|].
  intros res Hres.
  destruct (add_cred_input_untouched (N := Double.native) 1%positive 5
              Double.key Double.key "both" None None
              (mk_PyState 0%nat ({[1%positive := 5]}))) as (_ & H & _).
  - by eexists.
  - exact (proj1 (H res Hres)).
Defined.

(** X13.  [set_cred_option] makes one native call, whose value argument
    is the empty buffer (length 0, null pointer) exactly when [value] is
    [None], and the descriptor of the given bytes otherwise, the empty
    bytes included. *)
Theorem set_cred_option_value_buffer {W} {N : GssNative W}
    (desired_aspect : gss_OID_desc) (creds : option CredsRef)
    (value : option bytes) (st : PyState W) :
  ∃ raw value_buffer,
    native_calls (set_cred_option desired_aspect creds value st).2
    = [Call_set_cred_option raw desired_aspect value_buffer]
    ∧ value_buffer = match value with
                     | Some v => mk_gss_buffer_desc (len v) (Some v)
                     | None => GSS_C_EMPTY_BUFFER
                     end
    ∧ (value_buffer = GSS_C_EMPTY_BUFFER ↔ value = None).
Proof.
  rewrite set_cred_option_run. cbn zeta.
  destruct creds as [c|];
    destruct (gss_set_cred_option _ _ _ _) as [[w1 [maj_stat min_stat]] raw'];
    eexists _, _;
    (split; [destruct (maj_stat =? GSS_S_COMPLETE); reflexivity|]);
    (split; by destruct value).
Qed.

(** X14.  In a result of [inquire_name] the mechanism is present exactly
    when the name is reported as a mechanism name; with
    [mech_name=False] the name is reported as no mechanism name and no
    mechanism is returned, and with [attrs=False] the attribute list is
    empty and nothing is released, whatever the native call wrote. *)
Theorem inquire_name_mech_consistent {W} {N : GssNative W}
    (name : gss_name_t) (mech_name attrs : bool) (st st' : PyState W)
    (res : InquireNameResult) (t : list Event) :
  inquire_name name mech_name attrs st = (Ok res, st', t) →
  (inq_mech res = None ↔ inq_is_mech_name res = false)
  ∧ (mech_name = false → inq_is_mech_name res = false ∧ inq_mech res = None)
  ∧ (attrs = false → inq_attrs res = [] ∧ released t = []).
Proof.
  rewrite inquire_name_run.
  destruct (gss_inquire_name _ _ _ _ _) as [[w1 [maj_stat min_stat]] o].
  cbn zeta. destruct (maj_stat =? GSS_S_COMPLETE); [|discriminate].
  unfold inquire_name_locals, store, GSS_C_NO_BUFFER_SET.
  cbn [in_attrs in_name_is_mn in_mech_type].
  destruct attrs, mech_name;
    try destruct (in_attrs o) as [elements|];
    try destruct (gss_release_buffer_set _ _) as [[w2 s2] b'];
    intros [= <- <- <-]; cbn [inq_mech inq_is_mech_name inq_attrs];
    (split;
     [try destruct (bint (in_name_is_mn o)); cbn;
      split; intros; first [done | discriminate]|]);
    (split; [done|]); done.
Qed.

Lemma inquire_name_mech_consistent_witness :
  ∃ res st' t,
    inquire_name (N := Double.native) 5 false true Double.st0 = (Ok res, st', t)
    ∧ inq_is_mech_name res = false ∧ inq_mech res = None.
Proof.
  assert (H : ∃ res st' t,
    inquire_name (N := Double.native) 5 false true Double.st0 = (Ok res, st', t))
    by (eexists _, _, _; vm_compute; reflexivity).
  destruct H as (res & st' & t & H). exists res, st', t. split; [exact H|].
  exact (proj1 (proj2 (inquire_name_mech_consistent _ _ _ _ _ _ _ H)) eq_refl).
Defined.

(** X15.  Wrap then unwrap: over a native library whose unwrap gives
    back the payload of what its wrap produced, [unwrap_aead] applied to
    the message returned by a successful [wrap_aead], with the same
    associated data, succeeds and returns the original message: the two
    wrappers pass the bytes through unchanged. *)
Theorem aead_round_trip {W} {N : GssNative W} (Hlaw : aead_round_trip_law N)
    (context : gss_ctx_id_t) (message : bytes) (associated : option bytes)
    (confidential : bool) (qop : option Z) (st st1 : PyState W)
    (r : WrapResult) (t1 : list Event) :
  wrap_aead context message associated confidential qop st = (Ok r, st1, t1) →
  ∃ r' st2 t2,
    unwrap_aead context (wrap_message r) associated st1 = (Ok r', st2, t2)
    ∧ unwrap_message r' = message.
Proof.
  rewrite wrap_aead_run. cbn zeta.
  destruct (qop_req_of qop) as [qop_req|]; [|discriminate].
  match goal with
  | |- context [gss_wrap_aead ?a ?b ?c ?d ?e ?w] =>
      pose proof (λ w', Hlaw a b c d e w w') as Hl
  end.
  cbn zeta in Hl.
  destruct (gss_wrap_aead _ _ _ _ _ _) as [[w1 [maj_stat min_stat]] [cu ob]].
  unfold succeeded in Hl at 1. cbn [fst snd] in Hl.
  destruct (maj_stat =? GSS_S_COMPLETE); [|discriminate].
  destruct (gss_release_buffer _ _) as [[w2 s2] b'].
  intros [= <- <- <-]. cbn [wrap_message].
  rewrite unwrap_aead_run. cbn zeta. cbn [world].
  specialize (Hl w2 eq_refl).
  destruct (gss_unwrap_aead _ _ _ _)
    as [[w3 [maj_stat' min_stat']] [[ob' cs] qs]].
  unfold succeeded in Hl. cbn [fst snd] in Hl. destruct Hl as [-> Hbytes].
  destruct (gss_release_buffer _ _) as [[w4 s4] b''].
  eexists _, _, _. split; [reflexivity|]. cbn [unwrap_message].
  rewrite Hbytes. apply char_slice_of_bytes.
Qed.

Lemma Reference_aead_round_trip_law : aead_round_trip_law Reference.native.
Proof.
  intros ctx conf_req qop assoc payload w w'.
  cbn -[char_slice buffer_of_bytes]. intros _.
  split; [done|]. by rewrite !char_slice_of_bytes.
Qed.

Lemma aead_round_trip_witness :
  aead_round_trip_law Reference.native
  ∧ ∃ r st1 t1 r' st2 t2,
      wrap_aead (N := Reference.native) 1 Double.v1 (Some Double.key) true None
        Reference.st0 = (Ok r, st1, t1)
      ∧ unwrap_aead (N := Reference.native) 1 (wrap_message r)
          (Some Double.key) st1 = (Ok r', st2, t2)
      ∧ unwrap_message r' = Double.v1.
Proof.
  split; [exact Reference_aead_round_trip_law|].
  assert (H : ∃ r st1 t1,
    wrap_aead (N := Reference.native) 1 Double.v1 (Some Double.key) true None
      Reference.st0 = (Ok r, st1, t1))
    by (eexists _, _, _; vm_compute; reflexivity).
  destruct H as (r & st1 & t1 & H).
  destruct (aead_round_trip Reference_aead_round_trip_law _ _ _ _ _ _ _ _ _ H)
    as (r' & st2 & t2 & H2 & H3).
  exists r, st1, t1, r', st2, t2. auto.
Defined.

Section Reference_attributes.

Abbreviation Attrs := (gmap (gss_name_t * bytes) (list bytes * bool)).

Lemma bint_b2z (b : bool) : bint (Z.b2z b) = b.
Proof. by destruct b. Qed.

Lemma attr_values_insert (w : Attrs) name attr x :
  Reference.attr_values (<[(name, attr) := x]> w) name attr = x.
Proof. unfold Reference.attr_values. by rewrite lookup_insert_eq. Qed.

Lemma Reference_set_loop name complete attr value_len :
  ∀ (rest : list bytes) (i : Z) (st : PyState Attrs),
    let r := set_name_attribute_loop (N := Reference.native) name complete
               (buffer_of_bytes attr) value_len i rest st in
    let old := Reference.attr_values (world st) name attr in
    r.1.1 = Ok tt
    ∧ creds_heap r.1.2 = creds_heap st
    ∧ Reference.attr_values (world r.1.2) name attr
      = (old.1 ++ rest,
         old.2 || marked_complete complete value_len i (length rest)).
Proof.
  induction rest as [|val rest IH]; intros i st; cbn zeta.
  - cbn. rewrite app_nil_r, orb_false_r. by destruct (Reference.attr_values _ _ _).
  - assert (Hflag : (if (i + 1) mod size_t_modulus =? value_len
                     then Z.b2z complete else 0)
                    = complete_flag_at complete value_len i 1)
      by (unfold complete_flag_at; by replace (i + Z.of_nat 1) with (i + 1) by lia).
    rewrite set_name_attribute_loop_step. cbn zeta. rewrite Hflag.
    cbn [gss_set_name_attribute Reference.native].
    rewrite !char_slice_of_bytes.
    cbn [fst snd Double.ok Z.eqb GSS_S_COMPLETE world creds_heap].
    match goal with
    | |- context [set_name_attribute_loop _ _ _ _ _ rest ?s] =>
        specialize (IH ((i + 1) mod size_t_modulus) s)
    end.
    destruct (set_name_attribute_loop _ _ _ _ _ rest _) as [[o st2] t2].
    cbn [fst snd world creds_heap] in *.
    destruct IH as (-> & -> & ->).
    split; [done|]. split; [done|].
    rewrite !attr_values_insert.
    cbn [fst snd length]. rewrite <- app_assoc. cbn [app]. f_equal.
    rewrite marked_complete_S. by rewrite orb_assoc.
Qed.

Lemma get_name_attribute_loop_done {W} {N : GssNative W}
    fuel name ab v d c a pv pd (st : PyState W) :
  get_name_attribute_loop fuel name ab v d c a 0 pv pd st
  = (Ok (pv, pd, a, c), st, []).
Proof.
  destruct fuel; [by rewrite get_name_attribute_loop_O
                 | by rewrite get_name_attribute_loop_step].
Qed.

Lemma Reference_get_loop name attr :
  ∀ (n fuel idx : nat) (more : Z) (v d : gss_buffer_desc) (c a : Z)
    (pv pd : list bytes) (st : PyState Attrs),
    let stored := Reference.attr_values (world st) name attr in
    length stored.1 = (idx + S n)%nat →
    (S n ≤ fuel)%nat →
    (more < 0 ∧ idx = 0%nat) ∨ more = len stored.1 - Z.of_nat idx →
    (get_name_attribute_loop (N := Reference.native) fuel name
       (buffer_of_bytes attr) v d c a more pv pd st).1.1
    = Ok (pv ++ drop idx stored.1, pd ++ drop idx stored.1, 0,
          Z.b2z stored.2).
Proof.
  induction n as [|n IH];
    intros fuel idx more v d c a pv pd st; cbn zeta; intros Hlen Hfuel Hmore;
    (destruct fuel as [|fuel]; [lia|]);
    rewrite get_name_attribute_loop_step;
    (assert (Hne : (more =? 0) = false)
       by (apply Z.eqb_neq; unfold len in Hmore; lia));
    rewrite Hne;
    cbn [gss_get_name_attribute Reference.native];
    rewrite !char_slice_of_bytes;
    (assert (Hidx : (if more <? 0 then 0%nat
                     else (length (Reference.attr_values (world st) name attr).1
                           - Z.to_nat more)%nat) = idx)
       by (destruct Hmore as [[Hm Hi0]|Hm]; destruct (Z.ltb_spec more 0);
           unfold len in *; lia));
    rewrite Hidx;
    (destruct (lookup_lt_is_Some_2 (Reference.attr_values (world st) name attr).1
                 idx ltac:(lia)) as [x Hx]);
    rewrite Hx;
    cbn [fst snd Double.ok Z.eqb GSS_S_COMPLETE gss_release_buffer
           Reference.native world creds_heap ga_value ga_display_value
           ga_complete ga_authenticated ga_more];
    rewrite !char_slice_of_bytes;
    rewrite (drop_S _ _ _ Hx);
    (assert (Hst : mk_PyState (world st) (creds_heap st) = st) by (by destruct st));
    rewrite Hst.
  - assert (Hz : len (Reference.attr_values (world st) name attr).1
                 - Z.of_nat idx - 1 = 0) by (unfold len; lia).
    rewrite Hz, get_name_attribute_loop_done. cbn [fst snd].
    rewrite drop_ge by lia. done.
  - specialize (IH fuel (S idx)
                  (len (Reference.attr_values (world st) name attr).1
                   - Z.of_nat idx - 1)
                  GSS_C_EMPTY_BUFFER GSS_C_EMPTY_BUFFER
                  (Z.b2z (Reference.attr_values (world st) name attr).2) 0
                  (pv ++ [x]) (pd ++ [x]) st).
    cbn zeta in IH.
    destruct (get_name_attribute_loop _ _ _ _ _ _ _ _ _ _ _) as [[out st2] t2].
    cbn [fst snd] in *. rewrite IH; [|lia|lia|right; unfold len; lia].
    by rewrite <- !app_assoc.
Qed.

Lemma Reference_get (name : gss_name_t) (attr : bytes) (fuel : nat) (c a : Z)
    (st : PyState Attrs)
    (vals : list bytes) (flag : bool) :
  Reference.attr_values (world st) name attr = (vals, flag) →
  vals ≠ [] → (length vals ≤ fuel)%nat →
  (get_name_attribute (N := Reference.native) fuel name attr c a st).1.1
  = Ok (mk_GetNameAttributeResult vals vals false flag).
Proof.
  intros Hst Hne Hfuel. unfold get_name_attribute. mred.
  destruct vals as [|v0 vals]; [done|].
  pose proof (Reference_get_loop name attr (length vals) fuel 0 (-1)
                (mk_gss_buffer_desc 0 None) (mk_gss_buffer_desc 0 None)
                c a [] [] st) as H.
  cbn zeta in H. rewrite Hst in H. cbn [fst snd length] in H.
  specialize (H eq_refl Hfuel ltac:(left; lia)).
  destruct (get_name_attribute_loop _ _ _ _ _ _ _ _ _ _ _) as [[out st2] t2].
  cbn [fst snd] in *. rewrite H. cbn [drop app fst snd].
  by rewrite bint_b2z.
Qed.

End Reference_attributes.

(** X16.  Set then get, over the reference attribute store: after
    [set_name_attribute] with a non-empty list of values, whatever its
    uninitialised counter holds, [get_name_attribute] returns the values
    the attribute already had followed by the new ones, in order
    ("multiple calls to this method will continue adding values").  The
    complete flag it returns is the old one, or the caller's [complete]
    only when the counter held, modulo the size of [size_t], less than
    the number of values on entry: otherwise no call carried it. *)
Theorem set_then_get_on_reference
    (name : gss_name_t) (attr : bytes) (value : list bytes) (complete : bool)
    (i : Z) (fuel : nat) (c a : Z)
    (st : PyState (gmap (gss_name_t * bytes) (list bytes * bool))) :
  value ≠ [] →
  len value ≤ PY_SSIZE_T_MAX →
  let old := Reference.attr_values (world st) name attr in
  (length old.1 + length value ≤ fuel)%nat →
  let r := set_name_attribute (N := Reference.native) name attr value complete
             i st in
  r.1.1 = Ok tt
  ∧ (get_name_attribute (N := Reference.native) fuel name attr c a r.1.2).1.1
    = Ok (mk_GetNameAttributeResult (old.1 ++ value) (old.1 ++ value) false
            (old.2 || complete && (i mod size_t_modulus <? len value))).
Proof.
  intros Hne Hmax old Hfuel. cbn zeta. unfold set_name_attribute.
  destruct (Reference_set_loop name complete attr (len value) value i st)
    as (Hok & _ & Hstore).
  split; [exact Hok|].
  apply Reference_get.
  - rewrite Hstore. fold old. by rewrite marked_complete_spec.
  - by destruct (old.1), value.
  - rewrite length_app. exact Hfuel.
Qed.

Lemma set_then_get_on_reference_witness :
  [Double.v1; Double.v2] ≠ []
  ∧ len [Double.v1; Double.v2] ≤ PY_SSIZE_T_MAX
  ∧ (get_name_attribute (N := Reference.native) 2 5 Double.key 0 0
       (set_name_attribute (N := Reference.native) 5 Double.key
          [Double.v1; Double.v2] true 7 Reference.st0).1.2).1.1
    = Ok (mk_GetNameAttributeResult [Double.v1; Double.v2]
            [Double.v1; Double.v2] false false).
Proof.
  split; [discriminate|]. split; [vm_compute; discriminate|].
  refine (proj2 (set_then_get_on_reference 5 Double.key [Double.v1; Double.v2]
                   true 7 2 0 0 Reference.st0 _ _ _)).
  - discriminate.
  - vm_compute; discriminate.
  - vm_compute. lia.
Defined.

(** X17.  Delete, over the reference attribute store: deleting an
    existing attribute succeeds; [get_name_attribute] then raises the
    "unavailable" error; and a [set_name_attribute] after the delete,
    whatever its uninitialised counter holds, makes the attribute hold
    exactly the new values (the delete turns the adding into a
    setting), marked complete only when [complete] was asked for and
    the counter held, modulo the size of [size_t], less than the number
    of values on entry. *)
Theorem delete_resets_on_reference
    (name : gss_name_t) (attr : bytes) (value : list bytes) (complete : bool)
    (i : Z) (fuel : nat) (c a : Z)
    (st : PyState (gmap (gss_name_t * bytes) (list bytes * bool))) :
  is_Some (world st !! (name, attr)) →
  value ≠ [] →
  len value ≤ PY_SSIZE_T_MAX →
  (length value ≤ fuel)%nat →
  let deleted := delete_name_attribute (N := Reference.native) name attr st in
  let r := set_name_attribute (N := Reference.native) name attr value complete
             i deleted.1.2 in
  deleted.1.1 = Ok tt
  ∧ (get_name_attribute (N := Reference.native) (S fuel) name attr c a
       deleted.1.2).1.1
    = Raise (GSSError Double.GSS_S_UNAVAILABLE 0)
  ∧ (get_name_attribute (N := Reference.native) fuel name attr c a r.1.2).1.1
    = Ok (mk_GetNameAttributeResult value value false
            (complete && (i mod size_t_modulus <? len value))).
Proof.
  intros [x Hx] Hne Hmax Hfuel. cbn zeta.
  rewrite delete_name_attribute_run.
  cbn [gss_delete_name_attribute Reference.native].
  rewrite char_slice_of_bytes, Hx.
  cbn [fst snd Double.ok Z.eqb GSS_S_COMPLETE].
  set (st1 := mk_PyState (delete (name, attr) (world st)) (creds_heap st)).
  assert (Hgone : Reference.attr_values (world st1) name attr = ([], false)).
  { unfold Reference.attr_values, st1. cbn [world].
    by rewrite lookup_delete_eq. }
  split; [done|]. split.
  - unfold get_name_attribute. mred. rewrite get_name_attribute_loop_step.
    cbn [Z.eqb gss_get_name_attribute Reference.native].
    rewrite char_slice_of_bytes, Hgone. reflexivity.
  - unfold set_name_attribute.
    destruct (Reference_set_loop name complete attr (len value) value i st1)
      as (_ & _ & Hstore).
    apply Reference_get; [|done|done].
    rewrite Hstore, Hgone. cbn [fst snd app orb].
    by rewrite marked_complete_spec.
Qed.

Lemma delete_resets_on_reference_witness :
  let st :=
    mk_PyState
      ({[(5, Double.key) := ([Double.v1], true)]}
         : gmap (gss_name_t * bytes) (list bytes * bool)) ∅ in
  is_Some (world st !! (5, Double.key))
  ∧ (get_name_attribute (N := Reference.native) 1 5 Double.key 0 0
       (set_name_attribute (N := Reference.native) 5 Double.key [Double.v2]
          true 7
          (delete_name_attribute (N := Reference.native) 5 Double.key
             st).1.2).1.2).1.1
    = Ok (mk_GetNameAttributeResult [Double.v2] [Double.v2] false false).
Proof.
  cbn zeta.
  assert (H : is_Some
    (({[(5, Double.key) := ([Double.v1], true)]}
        : gmap (gss_name_t * bytes) (list bytes * bool)) !! (5, Double.key)))
    by (rewrite lookup_singleton_eq; by eexists).
  split; [exact H|].
  refine (proj2 (proj2 (delete_resets_on_reference 5 Double.key [Double.v2]
                          true 7 1 0 0 (mk_PyState _ ∅) H _ _ _))).
  - discriminate.
  - vm_compute; discriminate.
  - cbn. lia.
Defined.

(** X18.  Two calls of [set_cred_option] without [creds] return two
    different [Creds] objects: the first one did not exist before the
    first call, and the second call does not touch it. *)
Theorem set_cred_option_fresh_each_time {W} {N : GssNative W}
    (aspect1 aspect2 : gss_OID_desc) (value1 value2 : option bytes)
    (st : PyState W) :
  let r1 := set_cred_option aspect1 None value1 st in
  let r2 := set_cred_option aspect2 None value2 r1.1.2 in
  ∀ c1 c2, r1.1.1 = Ok c1 → r2.1.1 = Ok c2 →
    c1 ≠ c2
    ∧ creds_heap st !! c1 = None
    ∧ creds_heap r2.1.2 !! c1 = creds_heap r1.1.2 !! c1.
Proof.
  cbn zeta. rewrite !set_cred_option_run. cbn zeta.
  destruct (gss_set_cred_option _ _ _ (world st))
    as [[w1 [maj_stat min_stat]] raw1].
  destruct (maj_stat =? GSS_S_COMPLETE); cbn [fst snd world creds_heap];
    [|by intros c1 c2 [=]].
  set (heap1 := <[fresh (dom (creds_heap st)) := raw1]>
                  (<[fresh (dom (creds_heap st)) := GSS_C_NO_CREDENTIAL]>
                     (creds_heap st))).
  destruct (gss_set_cred_option _ _ _ w1) as [[w2 [maj_stat' min_stat']] raw2].
  destruct (maj_stat' =? GSS_S_COMPLETE); cbn [fst snd world creds_heap];
    [|by intros c1 c2 _ [=]].
  intros c1 c2 [= <-] [= <-].
  pose proof (is_fresh (dom heap1)) as Hfresh2.
  pose proof (is_fresh (dom (creds_heap st))) as Hfresh1.
  assert (Hin : fresh (dom (creds_heap st)) ∈ dom heap1)
    by (apply elem_of_dom; unfold heap1; rewrite lookup_insert_eq; by eexists).
  assert (Hne : fresh (dom (creds_heap st)) ≠ fresh (dom heap1))
    by (intros Heq; rewrite <- Heq in Hfresh2; done).
  split; [done|]. split; [by apply not_elem_of_dom|].
  by rewrite !lookup_insert_ne.
Qed.

Lemma set_cred_option_fresh_each_time_witness :
  ∃ c1 c2,
    (set_cred_option (N := Double.native) Double.key None None
       Double.st0).1.1 = Ok c1
    ∧ (set_cred_option (N := Double.native) Double.key None None
         (set_cred_option (N := Double.native) Double.key None None
            Double.st0).1.2).1.1 = Ok c2
    ∧ c1 ≠ c2.
Proof.
  assert (H : ∃ c1 c2,
    (set_cred_option (N := Double.native) Double.key None None
       Double.st0).1.1 = Ok c1
    ∧ (set_cred_option (N := Double.native) Double.key None None
         (set_cred_option (N := Double.native) Double.key None None
            Double.st0).1.2).1.1 = Ok c2)
    by (eexists _, _; vm_compute; split; reflexivity).
  destruct H as (c1 & c2 & H1 & H2). exists c1, c2.
  split; [exact H1|]. split; [exact H2|].
  exact (proj1 (set_cred_option_fresh_each_time (N := Double.native)
                  Double.key Double.key None None Double.st0 c1 c2 H1 H2)).
Defined.

Section Release_follows_status.

Lemma handed_over_none_succeeded (t : list Event) :
  Forall (λ s, succeeded s = false) (statuses t) → handed_over t = [].
Proof.
  induction t as [|e t IH]; [done|].
  destruct e as [c s o| | | |]; cbn [statuses omap handed_over flat_map];
    fold (statuses t); fold (handed_over t); try exact IH.
  intros H. apply Forall_cons in H as [Hs H]. rewrite Hs. exact (IH H).
Qed.

End Release_follows_status.

(** X9.  With no assumption on the native library, for every wrapper and
    on every path: the release calls are, in order, the output buffers
    of the native calls that reported success (a buffer set left as the
    empty-set sentinel apart), whether or not the call populated them;
    and when no native call succeeded no release call is made. *)
Theorem release_follows_status {W} {N : GssNative W}
    (fuel : nat) (op : Operation) (st : PyState W) :
  let t := (run_op fuel op st).2 in
  released t = handed_over t
  ∧ (Forall (λ s, succeeded s = false) (statuses t) → released t = []).
Proof.
  cbn zeta. pose proof (released_after_success fuel op st) as H.
  split; [exact H|]. intros Hnone. rewrite H.
  by apply handed_over_none_succeeded.
Qed.
